(** * lido-keys-api: the keys-update job, the staking-router reader and the
      registry query, as a shallow embedding.

    The development follows three source units:
    - [KeysUpdateService]          (jobs/keys-update: refresh cycle, watchdog,
                                    module lookup, metrics);
    - [StakingRouterFetchService]  (common/contracts: module list reader);
    - [RegistryService]            (jobs/registry: storage queries).

    Conventions.  A JS [number] that holds a block number, a timestamp, an
    identifier or a key count is an integer and is modelled by [Z]; the one
    place where the source divides ([getTime() / 1000]) is modelled with exact
    rationals ([Qc]).  [undefined]/[null] are [None].  Calls into collaborators
    (chain RPC, storage) are answered by an explicit environment record, one
    reply per call, so that every function below is executable. *)

From Stdlib Require Import ZArith QArith Qcanon.
From stdpp Require Import base option list gmap strings pretty numbers.

Open Scope Z_scope.

(** ** JavaScript values shared by the three units *)

(** [Error] and the subclass declared in keys-update ([KeyOutdatedError]
    carries [lastBlock], the value of [lastBlockNumber] when it was built).
    [NumericFault] is the error the contract library builds for a numeric
    fault (code NUMERIC_FAULT): it carries the reason, the operation and the
    offending value as a decimal string; the library composes its message from
    these. *)
Inductive JsError : Type :=
  | Error (message : string)
  | KeyOutdatedError (message : string) (lastBlock : option Z)
  | NumericFault (reason operation value : string).

(** What reaches the logger.  Only the calls that the sources make
    unconditionally are recorded; [debug?.] calls are optional and left out. *)
Inductive LogEntry : Type :=
  | LogLog (message : string)
  | LogError (e : JsError).

(** The settlement of an awaited promise of a collaborator. *)
Inductive Reply (A : Type) : Type :=
  | Resolves (a : A)
  | Rejects (e : JsError).
Arguments Resolves {A} a.
Arguments Rejects {A} e.

(** How a piece of our own code ends: it returns, it throws, or it calls
    [process.exit(code)] and nothing runs afterwards. *)
Inductive Outcome (A : Type) : Type :=
  | Returned (a : A)
  | Thrown (e : JsError)
  | Exited (code : Z).
Arguments Returned {A} a.
Arguments Thrown {A} e.
Arguments Exited {A} code.

(** Code that logs: the log is threaded through. *)
Definition Logged (A : Type) : Type := list LogEntry → Outcome A * list LogEntry.

(** [Promise.all(xs.map(async x => f x))].  Every callback runs (a rejection
    of one does not stop the others); the combined promise rejects with the
    first rejection; a [process.exit] in any callback ends the process.
    The order in which the awaited reads settle is not fixed by the code: the
    callbacks are resumed here in list order, so of several rejections (or
    exits) the one listed first is reported.  The statements on the result
    speak of a listed element, never of the first one. *)
Fixpoint promiseAllMap {A B : Type} (f : A → Logged B) (xs : list A) : Logged (list B) :=
  fun log =>
    match xs with
    | [] => (Returned [], log)
    | x :: rest =>
        match f x log with
        | (Exited c, log1) => (Exited c, log1)
        | (Thrown e, log1) =>
            match promiseAllMap f rest log1 with
            | (Exited c, log2) => (Exited c, log2)
            | (_, log2) => (Thrown e, log2)
            end
        | (Returned y, log1) =>
            match promiseAllMap f rest log1 with
            | (Returned ys, log2) => (Returned (y :: ys), log2)
            | (Thrown e, log2) => (Thrown e, log2)
            | (Exited c, log2) => (Exited c, log2)
            end
        end
    end.

(** ** Staking modules *)

(** [STAKING_MODULE_TYPE] is declared in staking-router-modules; the sources
    name one member of it. *)
Inductive STAKING_MODULE_TYPE : Type :=
  | CURATED_ONCHAIN_V1_TYPE.

Global Instance STAKING_MODULE_TYPE_eq_dec : EqDecision STAKING_MODULE_TYPE.
Proof. solve_decision. Defined.

(** The struct returned by the StakingRouter contract binding: small unsigned
    fields are numbers, the three last ones are [BigNumber]s. *)
Module ContractModule.
Record t : Type := mk {
  id : Z;
  stakingModuleAddress : string;
  stakingModuleFee : Z;
  treasuryFee : Z;
  targetShare : Z;
  status : Z;
  name : string;
  lastDepositAt : Z;
  lastDepositBlock : Z;
  exitedValidatorsCount : Z
}.
End ContractModule.

(** The [StakingModule] entity that is returned and cached. *)
Module StakingModule.
Record t : Type := mk {
  id : Z;
  stakingModuleAddress : string;
  stakingModuleFee : Z;
  treasuryFee : Z;
  targetShare : Z;
  status : Z;
  name : string;
  type : STAKING_MODULE_TYPE;
  lastDepositAt : Z;
  lastDepositBlock : Z;
  exitedValidatorsCount : Z
}.
End StakingModule.

(** [BigNumber.toNumber()]: throws a numeric fault (reason "overflow",
    operation "toNumber") when the value does not fit 53 bits. *)
Definition toNumber (x : Z) : Outcome Z :=
  if bool_decide (Z.abs x < 2 ^ 53) then Returned x
  else Thrown (NumericFault "overflow" "toNumber" (pretty x)).

(** ** StakingRouterFetchService *)

(** The replies of the chain for one call of [getStakingModules]. *)
Record ChainReplies : Type := {
  getStakingRouter : Reply string;
  contract_getStakingModules : Reply (list ContractModule.t);
  contract_getStakingModuleIsActive : Z → Reply bool
}.

(** The body of the callback mapped over the fetched modules
    (source lines 40-79 of the fetch service). *)
Definition transformModule (chain : ChainReplies) (stakingModule : ContractModule.t)
  : Logged StakingModule.t :=
  fun log =>
    match contract_getStakingModuleIsActive chain (ContractModule.id stakingModule) with
    | Rejects e => (Thrown e, log)
    | Resolves isActive =>
        if bool_decide (ContractModule.id stakingModule ≠ 1) then
          (Exited 1,
           log ++ [LogError (Error ("Staking Module id "
                                      +:+ pretty (ContractModule.id stakingModule)
                                      +:+ " is unknown"))])
        else
          let stakingModuleType := CURATED_ONCHAIN_V1_TYPE in
          match toNumber (ContractModule.lastDepositAt stakingModule) with
          | Thrown e => (Thrown e, log) | Exited c => (Exited c, log)
          | Returned lastDepositAt =>
          match toNumber (ContractModule.lastDepositBlock stakingModule) with
          | Thrown e => (Thrown e, log) | Exited c => (Exited c, log)
          | Returned lastDepositBlock =>
          match toNumber (ContractModule.exitedValidatorsCount stakingModule) with
          | Thrown e => (Thrown e, log) | Exited c => (Exited c, log)
          | Returned exitedValidatorsCount =>
              (Returned
                 {| StakingModule.id := ContractModule.id stakingModule;
                    StakingModule.stakingModuleAddress :=
                      ContractModule.stakingModuleAddress stakingModule;
                    StakingModule.stakingModuleFee :=
                      ContractModule.stakingModuleFee stakingModule;
                    StakingModule.treasuryFee := ContractModule.treasuryFee stakingModule;
                    StakingModule.targetShare := ContractModule.targetShare stakingModule;
                    StakingModule.status := ContractModule.status stakingModule;
                    StakingModule.name := ContractModule.name stakingModule;
                    StakingModule.type := stakingModuleType;
                    StakingModule.lastDepositAt := lastDepositAt;
                    StakingModule.lastDepositBlock := lastDepositBlock;
                    StakingModule.exitedValidatorsCount := exitedValidatorsCount |},
               log)
          end end end
    end.

(** [StakingRouterFetchService.getStakingModules]. *)
Definition getStakingModules (chain : ChainReplies) : Logged (list StakingModule.t) :=
  fun log =>
    match getStakingRouter chain with
    | Rejects e => (Thrown e, log)
    | Resolves stakingRouterAddress =>
        match contract_getStakingModules chain with
        | Rejects e => (Thrown e, log)
        | Resolves modules =>
            let log1 :=
              log ++ [LogLog ("Fetched " +:+ pretty (Z.of_nat (length modules)) +:+ " modules")] in
            promiseAllMap (transformModule chain) modules log1
        end
    end.

(** ** Registry entities (from the registry library, the fields the sources read) *)

Module RegistryOperator.
Record t : Type := mk {
  index : Z;
  usedSigningKeys : Z;
  totalSigningKeys : Z
}.
End RegistryOperator.

Module RegistryMeta.
Record t : Type := mk {
  blockNumber : Z;
  blockHash : string;
  keysOpIndex : Z;
  timestamp : Z
}.
End RegistryMeta.

Module RegistryKey.
Record t : Type := mk {
  index : Z;
  operatorIndex : Z;
  key : string;
  depositSignature : string;
  used : bool
}.
End RegistryKey.

(** ** KeysUpdateService: state *)

(** The fields the service documents as cached data (source lines 39-48). *)
Record Cache : Type := mkCache {
  lastTimestampSec : option Z;
  lastBlockNumber : option Z;
  curatedNonce : option Z;
  curatedOperators : list RegistryOperator.t;
  stakingModules : list StakingModule.t
}.

(** A pending [setTimeout]: its handle and the instant (ms) it is due. *)
Record Timer : Type := mkTimer {
  timerId : nat;
  fireAt : Z
}.

(** The part of the Node process the service acts on: pending timers, the
    logger's output, and whether [process.exit] was called. *)
Record Process : Type := mkProcess {
  timers : list Timer;
  nextTimerId : nat;
  logs : list LogEntry;
  exitCode : option Z
}.

(** Labels of [registryNumberOfKeysBySRModuleAndOperator]:
    [(operator, srModuleId, used)]. *)
Definition OperatorLabels : Type := Z * Z * string.

(** The gauges of [PrometheusService] the service writes.  A labelled gauge is
    a finite map from label values to the value last set. *)
Record Prometheus : Type := mkPrometheus {
  registryLastUpdate : option Z;
  registryBlockNumber : option Z;
  registryNonce : gmap Z Z;
  registryNumberOfKeysBySRModuleAndOperator : gmap OperatorLabels Z
}.

Record KeysUpdateService : Type := mkService {
  cache : Cache;
  updateDeadlineTimer : option nat;
  process : Process;
  prometheusService : Prometheus
}.

(** [UPDATE_KEYS_TIMEOUT_MS = 30 * 60 * 1000]. *)
Definition UPDATE_KEYS_TIMEOUT_MS : Z := 30 * 60 * 1000.

(** The field initialisers of the class, in a fresh process. *)
Definition newKeysUpdateService : KeysUpdateService :=
  {| cache := {| lastTimestampSec := None; lastBlockNumber := None; curatedNonce := None;
                 curatedOperators := []; stakingModules := [] |};
     updateDeadlineTimer := None;
     process := {| timers := []; nextTimerId := 0%nat; logs := []; exitCode := None |};
     prometheusService := {| registryLastUpdate := None; registryBlockNumber := None;
                             registryNonce := ∅;
                             registryNumberOfKeysBySRModuleAndOperator := ∅ |} |}.

(** Field updates. *)
Definition withCache (c : Cache) (s : KeysUpdateService) : KeysUpdateService :=
  {| cache := c; updateDeadlineTimer := updateDeadlineTimer s;
     process := process s; prometheusService := prometheusService s |}.
Definition withProcess (p : Process) (s : KeysUpdateService) : KeysUpdateService :=
  {| cache := cache s; updateDeadlineTimer := updateDeadlineTimer s;
     process := p; prometheusService := prometheusService s |}.
Definition withPrometheus (m : Prometheus) (s : KeysUpdateService) : KeysUpdateService :=
  {| cache := cache s; updateDeadlineTimer := updateDeadlineTimer s;
     process := process s; prometheusService := m |}.
Definition withDeadlineTimer (h : option nat) (s : KeysUpdateService) : KeysUpdateService :=
  {| cache := cache s; updateDeadlineTimer := h;
     process := process s; prometheusService := prometheusService s |}.
Definition withLogs (l : list LogEntry) (p : Process) : Process :=
  {| timers := timers p; nextTimerId := nextTimerId p; logs := l; exitCode := exitCode p |}.
Definition withStakingModules (ms : list StakingModule.t) (c : Cache) : Cache :=
  {| lastTimestampSec := lastTimestampSec c; lastBlockNumber := lastBlockNumber c;
     curatedNonce := curatedNonce c; curatedOperators := curatedOperators c;
     stakingModules := ms |}.

Definition loggerLog (message : string) (s : KeysUpdateService) : KeysUpdateService :=
  withProcess (withLogs (logs (process s) ++ [LogLog message]) (process s)) s.
Definition loggerError (e : JsError) (s : KeysUpdateService) : KeysUpdateService :=
  withProcess (withLogs (logs (process s) ++ [LogError e]) (process s)) s.

(** [process.exit(code)]. *)
Definition processExit (code : Z) (s : KeysUpdateService) : KeysUpdateService :=
  withProcess {| timers := timers (process s); nextTimerId := nextTimerId (process s);
                 logs := logs (process s); exitCode := Some code |} s.

Definition alive (s : KeysUpdateService) : bool :=
  bool_decide (exitCode (process s) = None).

(** ** Node timers *)

(** [setTimeout(callback, delay)] called at instant [now]: a fresh handle. *)
Definition setTimeout (delay now : Z) (p : Process) : nat * Process :=
  (nextTimerId p,
   {| timers := timers p ++ [{| timerId := nextTimerId p; fireAt := now + delay |}];
      nextTimerId := S (nextTimerId p); logs := logs p; exitCode := exitCode p |}).

(** [clearTimeout(handle)]. *)
Definition clearTimeout (handle : nat) (p : Process) : Process :=
  {| timers := filter (λ t, timerId t ≠ handle) (timers p);
     nextTimerId := nextTimerId p; logs := logs p; exitCode := exitCode p |}.

(** ** KeysUpdateService: the watchdog (source lines 73-91) *)

(** Truthiness of a [number | undefined]. *)
Definition truthy (v : option Z) : bool :=
  match v with
  | Some n => bool_decide (n ≠ 0)
  | None => false
  end.

(** [this.lastTimestampSec &&
     currTimestampSec - this.lastTimestampSec < this.UPDATE_KEYS_TIMEOUT_MS / 1000],
    with [currTimestampSec = now / 1000]; [now] is [new Date().getTime()]. *)
Definition isUpdated (now : Z) (c : Cache) : bool :=
  let currTimestampSec : Qc := (Qc_of_Z now / Qc_of_Z 1000)%Qc in
  match lastTimestampSec c with
  | Some last =>
      truthy (Some last)
      && bool_decide ((currTimestampSec - Qc_of_Z last
                       < Qc_of_Z UPDATE_KEYS_TIMEOUT_MS / Qc_of_Z 1000)%Qc)
  | None => false
  end.

(** [checkKeysUpdateTimeout], called at instant [now]. *)
Definition checkKeysUpdateTimeout (now : Z) (s : KeysUpdateService) : KeysUpdateService :=
  let p1 :=
    match updateDeadlineTimer s with
    | Some handle => if isUpdated now (cache s) then clearTimeout handle (process s)
                     else process s
    | None => process s
    end in
  let '(handle, p2) := setTimeout UPDATE_KEYS_TIMEOUT_MS now p1 in
  withDeadlineTimer (Some handle) (withProcess p2 s).

(** The callback given to [setTimeout] (source lines 83-90); it reads
    [this.lastBlockNumber] when it runs. *)
Definition deadlineCallback (s : KeysUpdateService) : KeysUpdateService :=
  let error :=
    KeyOutdatedError
      ("There were no keys update more than "
         +:+ pretty (UPDATE_KEYS_TIMEOUT_MS / (1000 * 60)) +:+ " minutes")
      (lastBlockNumber (cache s)) in
  processExit 1 (loggerError error s).

(** ** KeysUpdateService: module lookup (source lines 93-100) *)

(** [ModuleId = string | number]. *)
Inductive ModuleId : Type :=
  | ModuleIdString (s : string)
  | ModuleIdNumber (n : Z).

Section LooseEquality.
(** The runtime's string-to-number conversion used by [==] between a string
    and a number; [None] when the string denotes no integer (then [==] with
    an integer is false). *)
Variable StringToNumber : string → option Z.

(** [address == moduleId] for a string [address]. *)
Definition looseEqString (address : string) (moduleId : ModuleId) : bool :=
  match moduleId with
  | ModuleIdString s => bool_decide (address = s)
  | ModuleIdNumber n => bool_decide (StringToNumber address = Some n)
  end.

(** [id == moduleId] for a number [id]. *)
Definition looseEqNumber (id : Z) (moduleId : ModuleId) : bool :=
  match moduleId with
  | ModuleIdString s => bool_decide (StringToNumber s = Some id)
  | ModuleIdNumber n => bool_decide (id = n)
  end.

(** The predicate given to [find]. *)
Definition matchesModule (moduleId : ModuleId) (module : StakingModule.t) : bool :=
  looseEqString (StakingModule.stakingModuleAddress module) moduleId
  || looseEqNumber (StakingModule.id module) moduleId.

Definition getStakingModule (c : Cache) (moduleId : ModuleId) : option StakingModule.t :=
  List.find (matchesModule moduleId) (stakingModules c).
End LooseEquality.

(** The conversion restricted to plain decimal literals, for the examples. *)
Definition digitValue (c : Ascii.ascii) : option Z :=
  let n := Z.of_nat (Ascii.nat_of_ascii c) in
  if bool_decide (48 ≤ n ≤ 57) then Some (n - 48) else None.

Fixpoint decimalDigits (acc : Z) (s : string) : option Z :=
  match s with
  | EmptyString => Some acc
  | String c rest =>
      match digitValue c with
      | Some d => decimalDigits (10 * acc + d) rest
      | None => None
      end
  end.

Definition decimalStringToNumber (s : string) : option Z :=
  match s with
  | EmptyString => None
  | _ => decimalDigits 0 s
  end.

(** ** KeysUpdateService: metrics (source lines 160-207) *)

(** [gauge.set(labels, value)] and [gauge.reset()] on a labelled gauge. *)
Definition gaugeSet (labels : OperatorLabels) (value : Z) (g : gmap OperatorLabels Z)
  : gmap OperatorLabels Z := <[labels := value]> g.
Definition gaugeReset (g : gmap OperatorLabels Z) : gmap OperatorLabels Z := ∅.

(** The body of the [forEach] callback of [setCuratedOperatorsMetric]. *)
Definition setOperatorMetric (g : gmap OperatorLabels Z) (operator : RegistryOperator.t)
  : gmap OperatorLabels Z :=
  let g1 := gaugeSet (RegistryOperator.index operator, 1, "true")
                     (RegistryOperator.usedSigningKeys operator) g in
  gaugeSet (RegistryOperator.index operator, 1, "false")
           (RegistryOperator.totalSigningKeys operator
            - RegistryOperator.usedSigningKeys operator) g1.

(** [setCuratedOperatorsMetric], on the gauge: reset, then one pass over
    [curatedOperators]. *)
Definition setCuratedOperatorsMetric (operators : list RegistryOperator.t)
    (g : gmap OperatorLabels Z) : gmap OperatorLabels Z :=
  foldl setOperatorMetric (gaugeReset g) operators.

Definition setCuratedMetrics (s : KeysUpdateService) : KeysUpdateService :=
  let m := prometheusService s in
  let nonce :=
    if truthy (curatedNonce (cache s))
    then match curatedNonce (cache s) with
         | Some n => <[1 := n]> (registryNonce m)
         | None => registryNonce m
         end
    else registryNonce m in
  let m1 :=
    {| registryLastUpdate := registryLastUpdate m;
       registryBlockNumber := registryBlockNumber m;
       registryNonce := nonce;
       registryNumberOfKeysBySRModuleAndOperator :=
         setCuratedOperatorsMetric (curatedOperators (cache s))
                                   (registryNumberOfKeysBySRModuleAndOperator m) |} in
  loggerLog "Curated Module metrics updated" (withPrometheus m1 s).

Definition setMetrics (s : KeysUpdateService) : KeysUpdateService :=
  let m := prometheusService s in
  let m1 :=
    {| registryLastUpdate :=
         if truthy (lastTimestampSec (cache s)) then lastTimestampSec (cache s)
         else registryLastUpdate m;
       registryBlockNumber :=
         if truthy (lastBlockNumber (cache s)) then lastBlockNumber (cache s)
         else registryBlockNumber m;
       registryNonce := registryNonce m;
       registryNumberOfKeysBySRModuleAndOperator :=
         registryNumberOfKeysBySRModuleAndOperator m |} in
  setCuratedMetrics (withPrometheus m1 s).

(** ** KeysUpdateService: the refresh cycle (source lines 102-158) *)

(** The replies of the collaborators during one cycle.  [curatedUpdateKeys i]
    answers the call made for the module at position [i] of the list. *)
Record CycleReplies : Type := {
  getBlockHash : Reply string;
  chain : ChainReplies;
  curatedUpdateKeys : nat → Reply ();
  getOperatorsWithMeta : Reply (list RegistryOperator.t * option RegistryMeta.t)
}.

(** [meta?.field ?? current]. *)
Definition fieldOr {A : Type} (meta : option A) (field : A → Z) (current : option Z)
  : option Z :=
  match meta with
  | Some m => Some (field m)
  | None => current
  end.

Definition updateCuratedMetricsCache (env : CycleReplies) (c : Cache)
  : Outcome (option RegistryMeta.t) * Cache :=
  match getOperatorsWithMeta env with
  | Rejects e => (Thrown e, c)
  | Resolves (operators, meta) =>
      (Returned meta,
       {| lastTimestampSec := lastTimestampSec c;
          lastBlockNumber := lastBlockNumber c;
          curatedNonce := fieldOr meta RegistryMeta.keysOpIndex (curatedNonce c);
          curatedOperators := operators;
          stakingModules := stakingModules c |})
  end.

(** [METRICS_TIMEOUT = 30 * 1000], the argument of the [Trace] decorator. *)
Definition METRICS_TIMEOUT : Z := 30 * 1000.

(** [updateMetricsCache].  The decorator [Trace(METRICS_TIMEOUT)] (declared in
    common/decorators) times the call; it is taken not to change what the
    method stores or how it ends. *)
Definition updateMetricsCache (env : CycleReplies) (c : Cache) : Outcome () * Cache :=
  match updateCuratedMetricsCache env c with
  | (Returned meta, c1) =>
      (Returned (),
       {| lastTimestampSec := fieldOr meta RegistryMeta.timestamp (lastTimestampSec c1);
          lastBlockNumber := fieldOr meta RegistryMeta.blockNumber (lastBlockNumber c1);
          curatedNonce := curatedNonce c1;
          curatedOperators := curatedOperators c1;
          stakingModules := stakingModules c1 |})
  | (Thrown e, c1) => (Thrown e, c1)
  | (Exited code, c1) => (Exited code, c1)
  end.

(** The callback mapped over [this.stakingModules] (source lines 119-124). *)
Definition updateModuleKeys (env : CycleReplies) (entry : nat * StakingModule.t)
  : Logged () :=
  fun log =>
    if bool_decide (StakingModule.type entry.2 = CURATED_ONCHAIN_V1_TYPE) then
      let log1 := log ++ [LogLog "Start updating curated keys"] in
      match curatedUpdateKeys env entry.1 with
      | Rejects e => (Thrown e, log1)
      | Resolves _ => (Returned (), log1)
      end
    else (Returned (), log).

(** The callback given to [wrapJob] (source lines 107-135); [now] is the
    instant at which the cycle reaches its last statement. *)
Definition updateKeysJob (now : Z) (env : CycleReplies) (s : KeysUpdateService)
  : Outcome () * KeysUpdateService :=
  match getBlockHash env with
  | Rejects e => (Thrown e, s)
  | Resolves blockHash =>
      match getStakingModules (chain env) (logs (process s)) with
      | (Thrown e, log1) => (Thrown e, withProcess (withLogs log1 (process s)) s)
      | (Exited code, log1) =>
          (Exited code, processExit code (withProcess (withLogs log1 (process s)) s))
      | (Returned modules, log1) =>
          let s1 := withCache (withStakingModules modules (cache s))
                              (withProcess (withLogs log1 (process s)) s) in
          match promiseAllMap (updateModuleKeys env)
                              (imap pair (stakingModules (cache s1)))
                              (logs (process s1)) with
          | (Thrown e, log2) => (Thrown e, withProcess (withLogs log2 (process s1)) s1)
          | (Exited code, log2) =>
              (Exited code, processExit code (withProcess (withLogs log2 (process s1)) s1))
          | (Returned _, log2) =>
              let s2 := withProcess (withLogs log2 (process s1)) s1 in
              match updateMetricsCache env (cache s2) with
              | (Thrown e, c) => (Thrown e, withCache c s2)
              | (Exited code, c) => (Exited code, processExit code (withCache c s2))
              | (Returned _, c) =>
                  let s3 := withCache c s2 in
                  let s4 := setMetrics s3 in
                  (Returned (), checkKeysUpdateTimeout now s4)
              end
          end
      end
  end.

Section Job.
(** [JobService.wrapJob] is declared in common/job.  Whether it catches the
    error of the callback (and logs it) or lets it through is a parameter. *)
Variable wrapJobCatches : bool.

Definition wrapJob (callback : KeysUpdateService → Outcome () * KeysUpdateService)
    (s : KeysUpdateService) : Outcome () * KeysUpdateService :=
  match callback s with
  | (Thrown e, s1) =>
      if wrapJobCatches then (Returned (), loggerError e s1) else (Thrown e, s1)
  | r => r
  end.

(** [updateKeys] (the body under the decorator). *)
Definition updateKeys (now : Z) (env : CycleReplies) (s : KeysUpdateService)
  : Outcome () * KeysUpdateService :=
  wrapJob (updateKeysJob now env) s.

(** [this.updateKeys().catch((error) => this.logger.error(error))]. *)
Definition updateKeysCaught (now : Z) (env : CycleReplies) (s : KeysUpdateService)
  : KeysUpdateService :=
  match updateKeys now env s with
  | (Thrown e, s1) => loggerError e s1
  | (_, s1) => s1
  end.

(** *** The process over time *)

(** A deadline timer that is due runs its callback. *)
Definition fireDue (now : Z) (s : KeysUpdateService) : KeysUpdateService :=
  if existsb (λ t, bool_decide (fireAt t ≤ now)) (timers (process s))
  then deadlineCallback s
  else s.

(** A refresh cycle that reaches its end at instant [now]: timers due by then
    have run first, and nothing runs in a process that has exited. *)
Definition cycleAt (now : Z) (env : CycleReplies) (s : KeysUpdateService)
  : KeysUpdateService :=
  if alive s then
    let s1 := fireDue now s in
    if alive s1 then updateKeysCaught now env s1 else s1
  else s.

(** [initialize] (source lines 60-71), entered at [start]; the first cycle
    ends at [firstEnd].  The interval it installs produces the later cycles. *)
Definition initialize (start firstEnd : Z) (env : CycleReplies) (s : KeysUpdateService)
  : KeysUpdateService :=
  let s1 := checkKeysUpdateTimeout start s in
  let s2 := cycleAt firstEnd env s1 in
  if alive s2 then loggerLog "Finished KeysUpdateService initialization" s2 else s2.

(** The cycles started by the interval, by the instant each one ends. *)
Fixpoint runCycles (cycles : list (Z * CycleReplies)) (s : KeysUpdateService)
  : KeysUpdateService :=
  match cycles with
  | [] => s
  | (now, env) :: rest => runCycles rest (cycleAt now env s)
  end.
End Job.

(** ** The at-most-one-at-a-time guard of the refresh *)

Module Scheduler.

Inductive Phase : Type := Idle | Running | Stopped.

Global Instance Phase_eq_dec : EqDecision Phase.
Proof. solve_decision. Defined.

(** [active]: executions of the refresh in progress; [started]: executions
    begun so far. *)
Record t : Type := mk {
  phase : Phase;
  active : nat;
  started : nat
}.

Inductive Event : Type :=
  | Trigger   (* startup run, interval tick, any other invocation *)
  | Done      (* the execution in progress ends, normally or not *)
  | Stop.     (* process exit *)

Definition init : t := {| phase := Idle; active := 0; started := 0 |}.

(** Modelled from the spec: the decorator [OneAtTime] (common/decorators) is
    not among the sources.  Section 4.3: [Idle --tick--> Running] only if not
    already [Running], a tick arriving while a refresh is in progress is
    dropped entirely, not queued; [Running --done--> Idle] regardless of
    success or failure; inert once [Stopped]. *)
Definition step (s : t) (e : Event) : t :=
  match e, phase s with
  | Trigger, Idle =>
      {| phase := Running; active := S (active s); started := S (started s) |}
  | Trigger, Running => s
  | Done, Running =>
      {| phase := Idle; active := pred (active s); started := started s |}
  | Done, Idle => s
  | Stop, _ => {| phase := Stopped; active := 0; started := started s |}
  | _, Stopped => s
  end.

Definition run (s : t) (events : list Event) : t := foldl step s events.

End Scheduler.

(** ** RegistryService: query by public key (source lines 153-162) *)

(** What the storage holds. *)
Record Storage : Type := {
  storedKeys : list RegistryKey.t;
  storedMeta : option RegistryMeta.t
}.

(** What the storage is asked, in order. *)
Inductive StorageEvent : Type :=
  | TxBegin
  | TxCommit
  | FindByPubkey (pubkey : string)
  | MetaGet.

(** A storage query: reads the storage, appends to the requests made. *)
Definition Query (A : Type) : Type := Storage → list StorageEvent → A * list StorageEvent.

Definition qret {A : Type} (a : A) : Query A := fun _ evs => (a, evs).
Definition qbind {A B : Type} (q : Query A) (k : A → Query B) : Query B :=
  fun st evs => let '(a, evs1) := q st evs in k a st evs1.

Global Instance query_ret : MRet Query := @qret.
Global Instance query_bind : MBind Query := λ A B k q, qbind q k.

(** [keyStorageService.findByPubkey(pubkey)]: the keys whose [key] column is
    [pubkey]. *)
Definition findByPubkey (pubkey : string) : Query (list RegistryKey.t) :=
  fun st evs =>
    (filter (λ k, RegistryKey.key k = pubkey) (storedKeys st), evs ++ [FindByPubkey pubkey]).

(** [metaStorageService.get()]. *)
Definition metaStorageGet : Query (option RegistryMeta.t) :=
  fun st evs => (storedMeta st, evs ++ [MetaGet]).

(** [entityManager.transactional(callback)]. *)
Definition transactional {A : Type} (callback : Query A) : Query A :=
  fun st evs =>
    let '(a, evs1) := callback st (evs ++ [TxBegin]) in
    (a, evs1 ++ [TxCommit]).

(** [String.prototype.toLocaleLowerCase] on the ASCII range (public keys are
    hexadecimal strings): [A]-[Z] go to [a]-[z], other characters stay. *)
Definition lowerChar (c : Ascii.ascii) : Ascii.ascii :=
  let n := Ascii.nat_of_ascii c in
  if bool_decide (65 ≤ n ≤ 90)%nat then Ascii.ascii_of_nat (n + 32) else c.

Fixpoint toLocaleLowerCase (s : string) : string :=
  match s with
  | EmptyString => EmptyString
  | String c rest => String (lowerChar c) (toLocaleLowerCase rest)
  end.

Definition getMetaDataFromStorage : Query (option RegistryMeta.t) := metaStorageGet.

Definition getKeyWithMetaByPubkey (pubkey : string)
  : Query (list RegistryKey.t * option RegistryMeta.t) :=
  transactional (
    keys ← findByPubkey (toLocaleLowerCase pubkey);
    meta ← getMetaDataFromStorage;
    mret (keys, meta)).

(** Two characters that are the same letter up to case, and strings that
    differ only in that way. *)
Definition isUpperLetter (c : Ascii.ascii) : Prop :=
  (65 ≤ Ascii.nat_of_ascii c ≤ 90)%nat.

Definition upperOf (u l : Ascii.ascii) : Prop :=
  isUpperLetter u ∧ Ascii.nat_of_ascii l = (Ascii.nat_of_ascii u + 32)%nat.

Inductive sameLetter : Ascii.ascii → Ascii.ascii → Prop :=
  | sameLetter_eq c : sameLetter c c
  | sameLetter_up u l : upperOf u l → sameLetter u l
  | sameLetter_down u l : upperOf u l → sameLetter l u.

Inductive differOnlyInCase : string → string → Prop :=
  | differ_nil : differOnlyInCase EmptyString EmptyString
  | differ_cons c d s t :
      sameLetter c d → differOnlyInCase s t → differOnlyInCase (String c s) (String d t).

(** ** Data for the worked instances *)

Definition sampleContractModule (id : Z) (address : string) : ContractModule.t :=
  {| ContractModule.id := id;
     ContractModule.stakingModuleAddress := address;
     ContractModule.stakingModuleFee := 500;
     ContractModule.treasuryFee := 500;
     ContractModule.targetShare := 10000;
     ContractModule.status := 0;
     ContractModule.name := "curated-onchain-v1";
     ContractModule.lastDepositAt := 1679851235;
     ContractModule.lastDepositBlock := 8705383;
     ContractModule.exitedValidatorsCount := 0 |}.

Definition sampleModule (id : Z) (address : string) : StakingModule.t :=
  {| StakingModule.id := id;
     StakingModule.stakingModuleAddress := address;
     StakingModule.stakingModuleFee := 500;
     StakingModule.treasuryFee := 500;
     StakingModule.targetShare := 10000;
     StakingModule.status := 0;
     StakingModule.name := "curated-onchain-v1";
     StakingModule.type := CURATED_ONCHAIN_V1_TYPE;
     StakingModule.lastDepositAt := 1679851235;
     StakingModule.lastDepositBlock := 8705383;
     StakingModule.exitedValidatorsCount := 0 |}.

Definition norAddress : string := "0x9D4AF1Ee19Dad8857db3a45B0374c81c8A1C6320".
Definition otherAddress : string := "0x55032650b14df07b85bF18A3a3eC8E0Af2e028d5".

(** A chain that answers every read; it lists the given modules. *)
Definition sampleChain (modules : list ContractModule.t) : ChainReplies :=
  {| getStakingRouter := Resolves "0xa3Dbd317E53D363176359E10948BA0b1c0A4c820";
     contract_getStakingModules := Resolves modules;
     contract_getStakingModuleIsActive := λ _, Resolves true |}.

Definition sampleMeta (blockNumber keysOpIndex timestamp : Z) : RegistryMeta.t :=
  {| RegistryMeta.blockNumber := blockNumber;
     RegistryMeta.blockHash := "0xb0";
     RegistryMeta.keysOpIndex := keysOpIndex;
     RegistryMeta.timestamp := timestamp |}.

Definition sampleOperator (index used total : Z) : RegistryOperator.t :=
  {| RegistryOperator.index := index;
     RegistryOperator.usedSigningKeys := used;
     RegistryOperator.totalSigningKeys := total |}.

(** A cycle in which every read is answered: one curated module, the given
    operators and meta. *)
Definition sampleCycle (operators : list RegistryOperator.t) (meta : option RegistryMeta.t)
  : CycleReplies :=
  {| getBlockHash := Resolves "0xb0";
     chain := sampleChain [sampleContractModule 1 norAddress];
     curatedUpdateKeys := λ _, Resolves ();
     getOperatorsWithMeta := Resolves (operators, meta) |}.

(** The same cycle, except that the key update of the curated module fails. *)
Definition sampleCycleKeysFail : CycleReplies :=
  {| getBlockHash := Resolves "0xb0";
     chain := sampleChain [sampleContractModule 1 norAddress];
     curatedUpdateKeys := λ _, Rejects (Error "could not detect network");
     getOperatorsWithMeta := Resolves ([], None) |}.

(** ** Vocabulary of the statements *)

Definition unknownModuleError (m : ContractModule.t) : LogEntry :=
  LogError (Error ("Staking Module id " +:+ pretty (ContractModule.id m) +:+ " is unknown")).

Definition operatorLabels (operator : RegistryOperator.t) : list OperatorLabels :=
  [(RegistryOperator.index operator, 1, "true");
   (RegistryOperator.index operator, 1, "false")].

(** The timer that [checkKeysUpdateTimeout] schedules at [now]. *)
Definition newDeadline (now : Z) (s : KeysUpdateService) : Timer :=
  {| timerId := nextTimerId (process s); fireAt := now + UPDATE_KEYS_TIMEOUT_MS |}.

(** What a step leaves alone outside the cache and the log. *)
Definition sameRuntime (s s' : KeysUpdateService) : Prop :=
  timers (process s') = timers (process s)
  ∧ nextTimerId (process s') = nextTimerId (process s)
  ∧ exitCode (process s') = exitCode (process s)
  ∧ updateDeadlineTimer s' = updateDeadlineTimer s.

(** The cache once the operators and the meta have been stored. *)
Definition publishedCache (modules : list StakingModule.t)
    (operators : list RegistryOperator.t) (meta : option RegistryMeta.t) (c : Cache) : Cache :=
  {| lastTimestampSec := fieldOr meta RegistryMeta.timestamp (lastTimestampSec c);
     lastBlockNumber := fieldOr meta RegistryMeta.blockNumber (lastBlockNumber c);
     curatedNonce := fieldOr meta RegistryMeta.keysOpIndex (curatedNonce c);
     curatedOperators := operators;
     stakingModules := modules |}.

(** How the job of a cycle ends, as a function of the replies. *)
Definition jobOutcome (env : CycleReplies) : Outcome () :=
  (updateKeysJob 0 env newKeysUpdateService).1.

Definition completes (env : CycleReplies) : Prop := jobOutcome env = Returned ().

Definition fails (env : CycleReplies) : Prop := ∃ e, jobOutcome env = Thrown e.

(** The cycle reads a meta whose timestamp is less than the timeout behind
    the instant at which the cycle ends. *)
Definition readsFreshMeta (now : Z) (env : CycleReplies) : Prop :=
  ∃ operators m,
    getOperatorsWithMeta env = Resolves (operators, Some m)
    ∧ RegistryMeta.timestamp m ≠ 0
    ∧ now - 1000 * RegistryMeta.timestamp m < UPDATE_KEYS_TIMEOUT_MS.

(** Cycles keep completing: each one ends, having completed, less than the
    timeout after the previous one (the first after [previous]). *)
Fixpoint keepCompleting (previous : Z) (cycles : list (Z * CycleReplies)) : Prop :=
  match cycles with
  | [] => True
  | (now, env) :: rest =>
      previous ≤ now < previous + UPDATE_KEYS_TIMEOUT_MS
      ∧ completes env
      ∧ keepCompleting now rest
  end.

Fixpoint readFreshMeta (cycles : list (Z * CycleReplies)) : Prop :=
  match cycles with
  | [] => True
  | (now, env) :: rest => readsFreshMeta now env ∧ readFreshMeta rest
  end.

Fixpoint lastEnd (previous : Z) (cycles : list (Z * CycleReplies)) : Z :=
  match cycles with
  | [] => previous
  | (now, _) :: rest => lastEnd now rest
  end.

(** One deadline timer is pending, armed at [armedAt], and the handle refers
    to it. *)
Definition singleDeadline (armedAt : Z) (s : KeysUpdateService) : Prop :=
  alive s = true
  ∧ ∃ t, timers (process s) = [t]
         ∧ updateDeadlineTimer s = Some (timerId t)
         ∧ fireAt t = armedAt + UPDATE_KEYS_TIMEOUT_MS.

(** A timer due by [deadline] is pending, unless the process has exited. *)
Definition dueBy (deadline : Z) (s : KeysUpdateService) : Prop :=
  alive s = false ∨ ∃ t, t ∈ timers (process s) ∧ fireAt t ≤ deadline.

(** The scenario of the spec: a first cycle reads meta at block 100, index 5. *)
Definition afterBlock100 : KeysUpdateService :=
  updateKeysCaught true 1700000001000
    (sampleCycle [sampleOperator 0 7 10] (Some (sampleMeta 100 5 1700000000)))
    (checkKeysUpdateTimeout 1700000000000 newKeysUpdateService).

(** The next cycle reads meta at block 99, index 4. *)
Definition cycleBlock99 : CycleReplies :=
  sampleCycle [sampleOperator 0 7 10] (Some (sampleMeta 99 4 1699999988)).


(** A cycle that completes and reads a meta written some hours before
    [1700000000000] ms (the registry has not changed since). *)
Definition cycleOldMeta : CycleReplies :=
  sampleCycle [sampleOperator 0 7 10] (Some (sampleMeta 100 5 1699990000)).

(** A cycle that completes and reads a meta with the given timestamp. *)
Definition cycleMetaAt (timestamp : Z) : CycleReplies :=
  sampleCycle [sampleOperator 0 7 10] (Some (sampleMeta 100 5 timestamp)).

(** ** RegistryService: the other queries and the update job
       (source lines 120-207 of the registry job) *)

(** What [keyStorageService.find] is asked: [{ key: { $in: pubKeys } }], or
    the filters a caller passes, taken as the test they perform on a key. *)
Inductive FindFilter : Type :=
  | KeyIn (pubKeys : list string)
  | Where (filters : RegistryKey.t → bool).

Definition filterMatches (f : FindFilter) (k : RegistryKey.t) : bool :=
  match f with
  | KeyIn pubKeys => bool_decide (RegistryKey.key k ∈ pubKeys)
  | Where filters => filters k
  end.

(** The requests of these queries, in order. *)
Inductive StorageRequest : Type :=
  | ReqBegin
  | ReqCommit
  | ReqFind (f : FindFilter)
  | ReqMetaGet.

Definition Requesting (A : Type) : Type :=
  Storage → list StorageRequest → A * list StorageRequest.

(** [keyStorageService.find(filter)]. *)
Definition keyStorageFind (f : FindFilter) : Requesting (list RegistryKey.t) :=
  fun st reqs => (List.filter (filterMatches f) (storedKeys st), reqs ++ [ReqFind f]).

(** [metaStorageService.get()], as these queries reach it through
    [getMetaDataFromStorage]. *)
Definition metaStorageRead : Requesting (option RegistryMeta.t) :=
  fun st reqs => (storedMeta st, reqs ++ [ReqMetaGet]).

(** [getKeysByPubkeys]. *)
Definition getKeysByPubkeys (pubKeys : list string) : Requesting (list RegistryKey.t) :=
  keyStorageFind (KeyIn pubKeys).

(** [entityManager.transactional(async () => { keys; meta; return { keys, meta } })],
    the shape shared by [getKeysWithMetaByPubkeys] and [getKeysWithMeta]. *)
Definition keysWithMeta (readKeys : Requesting (list RegistryKey.t))
  : Requesting (list RegistryKey.t * option RegistryMeta.t) :=
  fun st reqs =>
    let '(keys, reqs1) := readKeys st (reqs ++ [ReqBegin]) in
    let '(meta, reqs2) := metaStorageRead st reqs1 in
    ((keys, meta), reqs2 ++ [ReqCommit]).

Definition getKeysWithMetaByPubkeys (pubkeys : list string)
  : Requesting (list RegistryKey.t * option RegistryMeta.t) :=
  keysWithMeta (getKeysByPubkeys pubkeys).

Definition getKeysWithMeta (filters : RegistryKey.t → bool)
  : Requesting (list RegistryKey.t * option RegistryMeta.t) :=
  keysWithMeta (keyStorageFind (Where filters)).

(** The fields of [RegistryService] that its job writes: [lastTimestamp]
    (initially 0), the gauge [registryLastUpdate], the logger's output. *)
Record RegistryService : Type := mkRegistryService {
  lastTimestamp : Z;
  registryLastUpdateGauge : option Z;
  registryLogs : list LogEntry
}.

Definition newRegistryService : RegistryService :=
  {| lastTimestamp := 0; registryLastUpdateGauge := None; registryLogs := [] |}.

(** The replies during one run of the job: [keyRegistryService.update('latest')]
    and the [metaStorageService.get()] that follows it. *)
Record RegistryReplies : Type := {
  keyRegistryUpdate : Reply ();
  metaStorageGetReply : Reply (option RegistryMeta.t)
}.

(** [updateTimestamp]. *)
Definition updateTimestamp (env : RegistryReplies) (s : RegistryService)
  : Outcome () * RegistryService :=
  match metaStorageGetReply env with
  | Rejects e => (Thrown e, s)
  | Resolves meta =>
      (Returned (),
       {| lastTimestamp := match meta with
                           | Some m => RegistryMeta.timestamp m
                           | None => lastTimestamp s
                           end;
          registryLastUpdateGauge := registryLastUpdateGauge s;
          registryLogs := registryLogs s |})
  end.

(** [updateMetrics]. *)
Definition updateMetrics (s : RegistryService) : RegistryService :=
  {| lastTimestamp := lastTimestamp s;
     registryLastUpdateGauge := Some (lastTimestamp s);
     registryLogs := registryLogs s ++ [LogLog "Registry metrics updated"] |}.

(** The callback that [RegistryService.updateKeys] gives to [wrapJob]. *)
Definition registryUpdateJob (env : RegistryReplies) (s : RegistryService)
  : Outcome () * RegistryService :=
  match keyRegistryUpdate env with
  | Rejects e => (Thrown e, s)
  | Resolves _ =>
      match updateTimestamp env s with
      | (Returned _, s1) => (Returned (), updateMetrics s1)
      | (Thrown e, s1) => (Thrown e, s1)
      | (Exited code, s1) => (Exited code, s1)
      end
  end.

(** One run of the job as the service makes it.  What wraps the callback
    ([wrapJob], the one-at-a-time decorator, the catch of [onModuleInit]) is
    not among the sources: [reported e] stands for what these send to the
    logger when the callback throws [e]. *)
Definition registryRun (reported : JsError → list LogEntry) (env : RegistryReplies)
    (s : RegistryService) : RegistryService :=
  match registryUpdateJob env s with
  | (Thrown e, s1) =>
      {| lastTimestamp := lastTimestamp s1;
         registryLastUpdateGauge := registryLastUpdateGauge s1;
         registryLogs := registryLogs s1 ++ reported e |}
  | (_, s1) => s1
  end.

(** The state after a sequence of runs of the job. *)
Fixpoint registryRuns (reported : JsError → list LogEntry) (runs : list RegistryReplies)
    (s : RegistryService) : RegistryService :=
  match runs with
  | [] => s
  | env :: rest => registryRuns reported rest (registryRun reported env s)
  end.

(** ** More vocabulary of the statements *)

(** [BigNumber.toNumber()] does not throw on [x]. *)
Definition fits53 (x : Z) : Prop := Z.abs x < 2 ^ 53.

(** Every read made for a fetched module is answered and the module is
    classified. *)
Definition transformable (chain : ChainReplies) (m : ContractModule.t) : Prop :=
  ContractModule.id m = 1
  ∧ (∃ isActive, contract_getStakingModuleIsActive chain (ContractModule.id m)
                 = Resolves isActive)
  ∧ fits53 (ContractModule.lastDepositAt m)
  ∧ fits53 (ContractModule.lastDepositBlock m)
  ∧ fits53 (ContractModule.exitedValidatorsCount m).

(** The returned entity carries the fields of the fetched struct. *)
Definition carries (m : ContractModule.t) (sm : StakingModule.t) : Prop :=
  StakingModule.id sm = ContractModule.id m
  ∧ StakingModule.stakingModuleAddress sm = ContractModule.stakingModuleAddress m
  ∧ StakingModule.stakingModuleFee sm = ContractModule.stakingModuleFee m
  ∧ StakingModule.treasuryFee sm = ContractModule.treasuryFee m
  ∧ StakingModule.targetShare sm = ContractModule.targetShare m
  ∧ StakingModule.status sm = ContractModule.status m
  ∧ StakingModule.name sm = ContractModule.name m
  ∧ StakingModule.type sm = CURATED_ONCHAIN_V1_TYPE
  ∧ StakingModule.lastDepositAt sm = ContractModule.lastDepositAt m
  ∧ StakingModule.lastDepositBlock sm = ContractModule.lastDepositBlock m
  ∧ StakingModule.exitedValidatorsCount sm = ContractModule.exitedValidatorsCount m.

Definition fetchedLog (modules : list ContractModule.t) : LogEntry :=
  LogLog ("Fetched " +:+ pretty (Z.of_nat (length modules)) +:+ " modules").

(** The process never exits for this module: it is classified, or its
    activity read fails before the check. *)
Definition passesCheck (chain : ChainReplies) (m : ContractModule.t) : Prop :=
  ContractModule.id m = 1
  ∨ ∃ e, contract_getStakingModuleIsActive chain (ContractModule.id m) = Rejects e.

(** Why [transformModule] throws [e] on a module: its activity read rejects
    with [e], or the module has id 1 and [e] is the numeric fault of one of its
    big numbers that does not fit 53 bits. *)
Definition throwsOn (chain : ChainReplies) (m : ContractModule.t) (e : JsError) : Prop :=
  contract_getStakingModuleIsActive chain (ContractModule.id m) = Rejects e
  ∨ (ContractModule.id m = 1
     ∧ ∃ x, x ∈ [ContractModule.lastDepositAt m; ContractModule.lastDepositBlock m;
                 ContractModule.exitedValidatorsCount m]
            ∧ ¬ fits53 x
            ∧ e = NumericFault "overflow" "toNumber" (pretty x)).

(** A chain that lists the given modules and fails every activity read. *)
Definition unansweredChain (modules : list ContractModule.t) : ChainReplies :=
  {| getStakingRouter := Resolves "0xa3Dbd317E53D363176359E10948BA0b1c0A4c820";
     contract_getStakingModules := Resolves modules;
     contract_getStakingModuleIsActive := λ _, Rejects (Error "missing response") |}.


(** The line logged before the key update of a curated module. *)
Definition startUpdatingLog : LogEntry := LogLog "Start updating curated keys".

(** The state in which a completed cycle calls [checkKeysUpdateTimeout]. *)
Definition beforeRearm (modules : list StakingModule.t) (log : list LogEntry)
    (operators : list RegistryOperator.t) (meta : option RegistryMeta.t)
    (s : KeysUpdateService) : KeysUpdateService :=
  setMetrics (withCache (publishedCache modules operators meta (cache s))
                        (withProcess (withLogs log (process s)) s)).

(** Every cached module is the curated one. *)
Definition cachesCuratedOnly (s : KeysUpdateService) : Prop :=
  Forall (λ m, StakingModule.id m = 1 ∧ StakingModule.type m = CURATED_ONCHAIN_V1_TYPE)
         (stakingModules (cache s)).

(** * Properties *)

(** ** The guard of the refresh *)

Section SchedulerFacts.
Import Scheduler.

Lemma step_guard (s : t) (e : Event) :
  (phase s = Running → active s = 1%nat) →
  (phase s ≠ Running → active s = 0%nat) →
  (phase (step s e) = Running → active (step s e) = 1%nat)
  ∧ (phase (step s e) ≠ Running → active (step s e) = 0%nat).
Proof.
  intros Hrun Hidle.
  destruct e, (phase s) eqn:Hp; unfold step; try rewrite Hp; simpl; split; intros H;
    try congruence; try (apply Hrun; congruence); try (apply Hidle; congruence).
  - rewrite Hidle; [reflexivity | congruence].
  - rewrite Hrun; reflexivity.
Qed.

Lemma run_guard (events : list Event) (s : t) :
  (phase s = Running → active s = 1%nat) →
  (phase s ≠ Running → active s = 0%nat) →
  (phase (run s events) = Running → active (run s events) = 1%nat)
  ∧ (phase (run s events) ≠ Running → active (run s events) = 0%nat).
Proof.
  revert s. induction events as [|e events IH]; intros s Hrun Hidle.
  - simpl. split; assumption.
  - simpl. destruct (step_guard s e Hrun Hidle) as [H1 H2].
    apply (IH (step s e) H1 H2).
Qed.

Lemma run_app (s : t) (pre post : list Event) :
  run s (pre ++ post) = run (run s pre) post.
Proof. unfold run. apply foldl_app. Qed.

(** C1.  Over every sequence of triggers, completions and stops, at most one
    execution of the refresh is active; and a trigger that arrives while an
    execution is in progress is dropped: the run with that trigger is, from
    then on, the run without it, so no execution is started for it later
    (the count of started executions is the same). *)
Theorem refresh_one_at_a_time (pre post : list Event) :
  (active (run init pre) ≤ 1)%nat
  ∧ (phase (run init pre) = Running →
       step (run init pre) Trigger = run init pre
       ∧ run init (pre ++ Trigger :: post) = run init (pre ++ post)
       ∧ started (run init (pre ++ Trigger :: post)) = started (run init (pre ++ post))).
Proof.
  assert (Hg := run_guard pre init).
  destruct Hg as [Hrun Hidle]; [simpl; congruence | reflexivity |].
  split.
  - destruct (decide (phase (run init pre) = Running)) as [H|H].
    + rewrite (Hrun H). lia.
    + rewrite (Hidle H). lia.
  - intros H.
    assert (Hdrop : step (run init pre) Trigger = run init pre).
    { unfold step. rewrite H. reflexivity. }
    assert (Heq : run init (pre ++ Trigger :: post) = run init (pre ++ post)).
    { rewrite !run_app.
      change (run (run init pre) (Trigger :: post))
        with (run (step (run init pre) Trigger) post).
      rewrite Hdrop. reflexivity. }
    rewrite Heq. auto.
Qed.

(** An instance: two ticks overlap the startup run; one execution starts. *)
Lemma refresh_one_at_a_time_witness :
  phase (run init [Trigger]) = Running
  ∧ run init ([Trigger] ++ Trigger :: [Trigger; Done]) = run init ([Trigger] ++ [Trigger; Done])
  ∧ started (run init [Trigger; Trigger; Trigger; Done]) = 1%nat.
Proof.
  split; [reflexivity|].
  split; [|reflexivity].
  apply (refresh_one_at_a_time [Trigger] [Trigger; Done]). reflexivity.
Defined.

End SchedulerFacts.

(** ** StakingRouterFetchService *)

Lemma toNumber_cases (x : Z) :
  toNumber x = Returned x
  ∨ toNumber x = Thrown (NumericFault "overflow" "toNumber" (pretty x)).
Proof. unfold toNumber. case_bool_decide; auto. Qed.

(** Every way [transformModule] can end. *)
Lemma transformModule_cases chain m log :
  (∃ sm, transformModule chain m log = (Returned sm, log)
         ∧ ContractModule.id m = 1
         ∧ StakingModule.id sm = 1
         ∧ StakingModule.stakingModuleAddress sm = ContractModule.stakingModuleAddress m
         ∧ StakingModule.type sm = CURATED_ONCHAIN_V1_TYPE)
  ∨ (∃ e, transformModule chain m log = (Thrown e, log)
          ∧ (contract_getStakingModuleIsActive chain (ContractModule.id m) = Rejects e
             ∨ ContractModule.id m = 1))
  ∨ (transformModule chain m log = (Exited 1, log ++ [unknownModuleError m])
     ∧ ContractModule.id m ≠ 1
     ∧ ∃ b, contract_getStakingModuleIsActive chain (ContractModule.id m) = Resolves b).
Proof.
  unfold transformModule.
  destruct (contract_getStakingModuleIsActive chain (ContractModule.id m)) as [b|e] eqn:Hact.
  - case_bool_decide as Hid.
    + right; right. eauto.
    + assert (Hid1 : ContractModule.id m = 1) by (destruct (decide (ContractModule.id m = 1)); tauto).
      destruct (toNumber_cases (ContractModule.lastDepositAt m)) as [-> | ->];
        [|right; left; eauto].
      destruct (toNumber_cases (ContractModule.lastDepositBlock m)) as [-> | ->];
        [|right; left; eauto].
      destruct (toNumber_cases (ContractModule.exitedValidatorsCount m)) as [-> | ->];
        [|right; left; eauto].
      left. eexists. split; [reflexivity|]. simpl. auto.
  - right; left. eauto.
Qed.

Lemma promiseAllMap_transform_exits chain modules :
  ∀ log m b,
    m ∈ modules →
    ContractModule.id m ≠ 1 →
    contract_getStakingModuleIsActive chain (ContractModule.id m) = Resolves b →
    ∃ m' log',
      promiseAllMap (transformModule chain) modules log = (Exited 1, log')
      ∧ m' ∈ modules ∧ ContractModule.id m' ≠ 1
      ∧ list.last log' = Some (unknownModuleError m').
Proof.
  induction modules as [|x rest IH]; intros log m b Hin Hid Hact.
  - inversion Hin.
  - simpl.
    destruct (transformModule_cases chain x log)
      as [(sm & -> & Hx & _) | [(e & -> & Hx) | (-> & Hx & _)]].
    + assert (Hin' : m ∈ rest).
      { apply elem_of_cons in Hin as [-> | Hin]; [congruence | assumption]. }
      destruct (IH log m b Hin' Hid Hact) as (m' & log' & -> & Hm' & Hid' & Hlast).
      exists m', log'. repeat split; auto. by apply list_elem_of_further.
    + assert (Hin' : m ∈ rest).
      { apply elem_of_cons in Hin as [-> | Hin]; [|assumption].
        destruct Hx as [Hx | Hx]; congruence. }
      destruct (IH log m b Hin' Hid Hact) as (m' & log' & -> & Hm' & Hid' & Hlast).
      exists m', log'. repeat split; auto. by apply list_elem_of_further.
    + exists x, (log ++ [unknownModuleError x]). repeat split; auto.
      * apply list_elem_of_here.
      * apply last_snoc.
Qed.

Lemma promiseAllMap_transform_returned chain modules :
  ∀ log ms log',
    promiseAllMap (transformModule chain) modules log = (Returned ms, log') →
    log' = log
    ∧ Forall (λ m, ContractModule.id m = 1) modules
    ∧ Forall (λ sm, StakingModule.id sm = 1
                    ∧ StakingModule.type sm = CURATED_ONCHAIN_V1_TYPE) ms
    ∧ length ms = length modules.
Proof.
  induction modules as [|x rest IH]; intros log ms log' H.
  - simpl in H. inversion H; subst. repeat split; constructor.
  - simpl in H.
    destruct (transformModule_cases chain x log)
      as [(sm & Hx & Hid & Hsid & _ & Hty) | [(e & Hx & _) | (Hx & _)]];
      rewrite Hx in H.
    + destruct (promiseAllMap (transformModule chain) rest log) as [[ys|e|c] log2] eqn:Hrest;
        inversion H; subst.
      destruct (IH _ _ _ Hrest) as (-> & Hall & Hall' & Hlen).
      repeat split; [constructor; auto | constructor; auto | simpl; congruence].
    + destruct (promiseAllMap (transformModule chain) rest log) as [[ys|e'|c] log2];
        inversion H.
    + inversion H.
Qed.


(** ** KeysUpdateService: module lookup *)

Section LookupFacts.
Variable StringToNumber : string → option Z.

Lemma getStakingModule_found c moduleId m :
  m ∈ stakingModules c →
  matchesModule StringToNumber moduleId m = true →
  ∃ m', getStakingModule StringToNumber c moduleId = Some m'
        ∧ m' ∈ stakingModules c
        ∧ matchesModule StringToNumber moduleId m' = true.
Proof.
  intros Hin Hm. unfold getStakingModule.
  destruct (List.find (matchesModule StringToNumber moduleId) (stakingModules c))
    as [m'|] eqn:Hfind.
  - apply List.find_some in Hfind as [Hin' Hm'].
    exists m'. split; [reflexivity|]. split; [by apply list_elem_of_In | assumption].
  - apply list_elem_of_In in Hin.
    pose proof (List.find_none _ _ Hfind m Hin). congruence.
Qed.

(** C8.  [getStakingModule] returns a cached module whenever some cached
    module has its address or its id loosely equal to the identifier, and the
    module returned is one that matches; the identifier may be the number id,
    the address string, or a string whose numeric value is the id; when no
    cached module matches, the result is [None] (undefined), not an error. *)
Theorem getStakingModule_by_id_or_address c moduleId :
  (∀ m, m ∈ stakingModules c →
        looseEqString StringToNumber (StakingModule.stakingModuleAddress m) moduleId = true
        ∨ looseEqNumber StringToNumber (StakingModule.id m) moduleId = true →
        ∃ m', getStakingModule StringToNumber c moduleId = Some m'
              ∧ m' ∈ stakingModules c
              ∧ (looseEqString StringToNumber (StakingModule.stakingModuleAddress m') moduleId = true
                 ∨ looseEqNumber StringToNumber (StakingModule.id m') moduleId = true))
  ∧ (∀ m, m ∈ stakingModules c →
          is_Some (getStakingModule StringToNumber c (ModuleIdNumber (StakingModule.id m)))
          ∧ is_Some (getStakingModule StringToNumber c
                       (ModuleIdString (StakingModule.stakingModuleAddress m)))
          ∧ ∀ s, StringToNumber s = Some (StakingModule.id m) →
                 is_Some (getStakingModule StringToNumber c (ModuleIdString s)))
  ∧ ((∀ m, m ∈ stakingModules c →
           looseEqString StringToNumber (StakingModule.stakingModuleAddress m) moduleId = false
           ∧ looseEqNumber StringToNumber (StakingModule.id m) moduleId = false) →
     getStakingModule StringToNumber c moduleId = None).
Proof.
  split; [|split].
  - intros m Hin Hm.
    destruct (getStakingModule_found c moduleId m Hin) as (m' & Hget & Hin' & Hm').
    { unfold matchesModule. apply orb_true_iff. exact Hm. }
    exists m'. split; [assumption|]. split; [assumption|].
    unfold matchesModule in Hm'. apply orb_true_iff in Hm'. exact Hm'.
  - intros m Hin. split; [|split].
    + destruct (getStakingModule_found c (ModuleIdNumber (StakingModule.id m)) m Hin)
        as (m' & -> & _); [|eauto].
      unfold matchesModule. simpl. rewrite (bool_decide_eq_true_2 _ eq_refl).
      apply orb_true_r.
    + destruct (getStakingModule_found c
                  (ModuleIdString (StakingModule.stakingModuleAddress m)) m Hin)
        as (m' & -> & _); [|eauto].
      unfold matchesModule. simpl. rewrite (bool_decide_eq_true_2 _ eq_refl).
      reflexivity.
    + intros s Hs.
      destruct (getStakingModule_found c (ModuleIdString s) m Hin) as (m' & -> & _); [|eauto].
      unfold matchesModule. simpl. rewrite (bool_decide_eq_true_2 _ Hs).
      apply orb_true_r.
  - intros Hnone. unfold getStakingModule.
    destruct (List.find (matchesModule StringToNumber moduleId) (stakingModules c))
      as [m'|] eqn:Hfind; [|reflexivity].
    apply List.find_some in Hfind as [Hin' Hm'].
    apply list_elem_of_In in Hin'. destruct (Hnone m' Hin') as [H1 H2].
    unfold matchesModule in Hm'. rewrite H1, H2 in Hm'. discriminate.
Qed.
End LookupFacts.

(** ** KeysUpdateService: operator metrics *)

Lemma setOperatorMetric_lookup g op (labels : OperatorLabels) :
  is_Some (setOperatorMetric g op !! labels)
  ↔ is_Some (g !! labels) ∨ labels ∈ operatorLabels op.
Proof.
  unfold setOperatorMetric, gaugeSet, operatorLabels.
  rewrite !lookup_insert_is_Some'.
  rewrite !elem_of_cons, elem_of_nil. intuition auto.
Qed.

Lemma foldl_setOperatorMetric_lookup ops :
  ∀ g (labels : OperatorLabels),
    is_Some (foldl setOperatorMetric g ops !! labels)
    ↔ is_Some (g !! labels) ∨ ∃ op, op ∈ ops ∧ labels ∈ operatorLabels op.
Proof.
  induction ops as [|op ops IH]; intros g labels; simpl.
  - split; [auto|]. intros [H | (op & Hin & _)]; [assumption | inversion Hin].
  - rewrite IH, setOperatorMetric_lookup. split.
    + intros [[H | H] | (op' & Hin & H)]; [auto | right | right].
      * exists op. split; [apply list_elem_of_here | assumption].
      * exists op'. split; [by apply list_elem_of_further | assumption].
    + intros [H | (op' & Hin & H)]; [auto|].
      apply elem_of_cons in Hin as [-> | Hin]; [auto|].
      right. eauto.
Qed.

(** C9.  Whatever the gauge held after the previous cycle, after
    [setCuratedOperatorsMetric] over the current operator list the gauge holds
    an entry for a label set exactly when it is the used or the unused label
    set of an operator of the current list; so every current operator has its
    used and its unused entry, and an operator index that occurs in no current
    operator (one removed since the previous cycle) has neither. *)
Theorem setCuratedOperatorsMetric_reset_and_rebuilt
    (operators : list RegistryOperator.t) (previous : gmap OperatorLabels Z) :
  let g := setCuratedOperatorsMetric operators previous in
  (∀ labels : OperatorLabels,
      is_Some (g !! labels) ↔ ∃ op, op ∈ operators ∧ labels ∈ operatorLabels op)
  ∧ (∀ op, op ∈ operators →
           is_Some (g !! (RegistryOperator.index op, 1, "true"))
           ∧ is_Some (g !! (RegistryOperator.index op, 1, "false")))
  ∧ (∀ index : Z,
        (∀ op, op ∈ operators → RegistryOperator.index op ≠ index) →
        g !! (index, 1, "true") = None ∧ g !! (index, 1, "false") = None).
Proof.
  intros g.
  assert (Hchar : ∀ labels : OperatorLabels,
             is_Some (g !! labels) ↔ ∃ op, op ∈ operators ∧ labels ∈ operatorLabels op).
  { intros labels. unfold g, setCuratedOperatorsMetric, gaugeReset.
    rewrite foldl_setOperatorMetric_lookup, lookup_empty.
    split; [intros [H | H]; [by apply is_Some_None in H | assumption] | auto]. }
  split; [exact Hchar|]. split.
  - intros op Hin. split; apply Hchar; exists op; (split; [assumption|]);
      unfold operatorLabels; [apply list_elem_of_here | apply list_elem_of_further, list_elem_of_here].
  - intros index Hnone.
    split; apply eq_None_not_Some; intros H; apply Hchar in H as (op & Hin & Hl);
      unfold operatorLabels in Hl;
      rewrite !elem_of_cons, elem_of_nil in Hl;
      destruct Hl as [Hl | [Hl | []]]; simplify_eq;
      exact (Hnone op Hin eq_refl).
Qed.

(** ** RegistryService: query by public key *)

Lemma lowerChar_upperOf u l : upperOf u l → lowerChar u = lowerChar l.
Proof.
  intros [Hu Hl]. unfold isUpperLetter in Hu. unfold lowerChar.
  rewrite (bool_decide_eq_true_2 _ Hu).
  rewrite bool_decide_eq_false_2 by lia.
  rewrite <- Hl. apply Ascii.ascii_nat_embedding.
Qed.

Lemma lowerChar_sameLetter c d : sameLetter c d → lowerChar c = lowerChar d.
Proof.
  intros [c' | u l H | u l H]; [reflexivity | | symmetry]; by apply lowerChar_upperOf.
Qed.

Lemma toLocaleLowerCase_differOnlyInCase p q :
  differOnlyInCase p q → toLocaleLowerCase p = toLocaleLowerCase q.
Proof.
  induction 1 as [|c d s t Hcd _ IH]; simpl; [reflexivity|].
  rewrite (lowerChar_sameLetter c d Hcd), IH. reflexivity.
Qed.

(** What [getKeyWithMetaByPubkey] asks the storage and what it returns. *)
Lemma getKeyWithMetaByPubkey_unfold pubkey st evs :
  getKeyWithMetaByPubkey pubkey st evs
  = ((filter (λ k, RegistryKey.key k = toLocaleLowerCase pubkey) (storedKeys st),
      storedMeta st),
     evs ++ [TxBegin; FindByPubkey (toLocaleLowerCase pubkey); MetaGet; TxCommit]).
Proof.
  unfold getKeyWithMetaByPubkey, transactional, getMetaDataFromStorage, mbind, query_bind,
    qbind, findByPubkey, metaStorageGet, mret, query_ret, qret.
  simpl. rewrite <- !app_assoc. reflexivity.
Qed.

(** C10.  [getKeyWithMetaByPubkey] looks the key up under the lower-cased
    public key: for two public keys that differ only in letter case it makes
    the same storage requests and returns the same keys and meta; the key
    lookup and the meta read are the only requests between the begin and the
    commit of one transaction. *)
Theorem getKeyWithMetaByPubkey_lowercases p q st evs :
  differOnlyInCase p q →
  getKeyWithMetaByPubkey p st evs = getKeyWithMetaByPubkey q st evs
  ∧ (getKeyWithMetaByPubkey p st evs).2
    = evs ++ [TxBegin; FindByPubkey (toLocaleLowerCase p); MetaGet; TxCommit]
  ∧ (getKeyWithMetaByPubkey p st evs).1
    = (filter (λ k, RegistryKey.key k = toLocaleLowerCase p) (storedKeys st), storedMeta st).
Proof.
  intros H. rewrite !getKeyWithMetaByPubkey_unfold.
  rewrite (toLocaleLowerCase_differOnlyInCase p q H). auto.
Qed.

(** An instance of C8, with decimal identifiers. *)
Lemma getStakingModule_by_id_or_address_witness :
  let c := withStakingModules [sampleModule 1 norAddress] (cache newKeysUpdateService) in
  is_Some (getStakingModule decimalStringToNumber c (ModuleIdString "1"))
  ∧ is_Some (getStakingModule decimalStringToNumber c (ModuleIdNumber 1))
  ∧ is_Some (getStakingModule decimalStringToNumber c (ModuleIdString norAddress))
  ∧ getStakingModule decimalStringToNumber c (ModuleIdString "2") = None.
Proof.
  intros c.
  destruct (getStakingModule_by_id_or_address decimalStringToNumber c (ModuleIdString "2"))
    as (_ & Hforms & Hnone).
  destruct (Hforms (sampleModule 1 norAddress)) as (Hnum & Haddr & Hstr).
  { apply list_elem_of_here. }
  split; [apply (Hstr "1"); reflexivity|].
  split; [exact Hnum|]. split; [exact Haddr|].
  apply Hnone. intros m Hm. apply list_elem_of_singleton in Hm as ->.
  split; reflexivity.
Defined.

(** An instance of C10: the same key in two spellings. *)
Lemma getKeyWithMetaByPubkey_lowercases_witness :
  let st := {| storedKeys := [ {| RegistryKey.index := 0; RegistryKey.operatorIndex := 3;
                                  RegistryKey.key := "0xa1f4";
                                  RegistryKey.depositSignature := "0x8b";
                                  RegistryKey.used := true |} ];
               storedMeta := Some (sampleMeta 100 5 1700000000) |} in
  differOnlyInCase "0xA1f4" "0xa1F4"
  ∧ getKeyWithMetaByPubkey "0xA1f4" st [] = getKeyWithMetaByPubkey "0xa1F4" st []
  ∧ (getKeyWithMetaByPubkey "0xA1f4" st []).2 = [TxBegin; FindByPubkey "0xa1f4"; MetaGet; TxCommit].
Proof.
  intros st.
  assert (H : differOnlyInCase "0xA1f4" "0xa1F4").
  { repeat first
      [ apply differ_nil
      | apply differ_cons;
        [ first [ apply sameLetter_eq
                | apply sameLetter_up; split; [unfold isUpperLetter; vm_compute; lia | reflexivity]
                | apply sameLetter_down; split; [unfold isUpperLetter; vm_compute; lia | reflexivity] ]
        | ] ]. }
  split; [exact H|].
  destruct (getKeyWithMetaByPubkey_lowercases "0xA1f4" "0xa1F4" st [] H) as (Hsame & Hevs & _).
  split; [exact Hsame | exact Hevs].
Defined.

(** ** KeysUpdateService: the watchdog *)

(** The test of [isUpdated] in integer milliseconds. *)
Lemma isUpdated_spec now c :
  isUpdated now c = true
  ↔ ∃ last, lastTimestampSec c = Some last ∧ last ≠ 0
            ∧ now - 1000 * last < UPDATE_KEYS_TIMEOUT_MS.
Proof.
  unfold isUpdated, truthy.
  destruct (lastTimestampSec c) as [last|]; [|split; [discriminate | intros (? & ? & _); discriminate]].
  rewrite andb_true_iff, !bool_decide_eq_true.
  assert (Hq : (Qc_of_Z now / Qc_of_Z 1000 - Qc_of_Z last
                < Qc_of_Z UPDATE_KEYS_TIMEOUT_MS / Qc_of_Z 1000)%Qc
               ↔ now - 1000 * last < UPDATE_KEYS_TIMEOUT_MS).
  { unfold Qclt, Qcminus, Qcdiv, Qcmult, Qcinv, Qcopp, Qcplus, Qc_of_Z. simpl.
    rewrite !Qred_correct.
    unfold Qlt, Qplus, Qopp, Qmult, Qinv, inject_Z, UPDATE_KEYS_TIMEOUT_MS. simpl.
    lia. }
  rewrite Hq. split.
  - intros [H1 H2]. exists last. auto.
  - intros (l & Hl & H1 & H2). inversion Hl; subst. auto.
Qed.

Lemma checkKeysUpdateTimeout_frame now s :
  cache (checkKeysUpdateTimeout now s) = cache s
  ∧ prometheusService (checkKeysUpdateTimeout now s) = prometheusService s
  ∧ logs (process (checkKeysUpdateTimeout now s)) = logs (process s)
  ∧ exitCode (process (checkKeysUpdateTimeout now s)) = exitCode (process s)
  ∧ updateDeadlineTimer (checkKeysUpdateTimeout now s) = Some (timerId (newDeadline now s)).
Proof.
  unfold checkKeysUpdateTimeout, newDeadline.
  destruct (updateDeadlineTimer s); [destruct (isUpdated now (cache s))|]; simpl; auto.
Qed.

Lemma checkKeysUpdateTimeout_kept now s :
  isUpdated now (cache s) = false ∨ updateDeadlineTimer s = None →
  timers (process (checkKeysUpdateTimeout now s)) = timers (process s) ++ [newDeadline now s].
Proof.
  unfold checkKeysUpdateTimeout, newDeadline.
  intros [H | H]; rewrite H; [destruct (updateDeadlineTimer s)|]; reflexivity.
Qed.

Lemma checkKeysUpdateTimeout_cleared now s handle :
  isUpdated now (cache s) = true →
  updateDeadlineTimer s = Some handle →
  timers (process (checkKeysUpdateTimeout now s))
  = filter (λ t, timerId t ≠ handle) (timers (process s)) ++ [newDeadline now s].
Proof.
  unfold checkKeysUpdateTimeout, newDeadline. intros -> ->. reflexivity.
Qed.

Lemma filter_none {A : Type} (P : A → Prop) `{∀ x, Decision (P x)} (l : list A) :
  (∀ x, x ∈ l → ¬ P x) → filter P l = [].
Proof.
  induction l as [|x l IH]; intros Hall; [reflexivity|].
  rewrite filter_cons_False by (apply Hall, list_elem_of_here).
  apply IH. intros y Hy. apply Hall. by apply list_elem_of_further.
Qed.

(** C5, as the code has it.  A re-arming always schedules a new deadline timer
    and makes [updateDeadlineTimer] refer to it.  It cancels the timer that
    [updateDeadlineTimer] referred to only when the cached [lastTimestampSec]
    is set, non-zero and less than the timeout behind the clock; then, if no
    other timer was pending, exactly one timer is pending afterwards.
    Otherwise nothing is cancelled: the timers pending before stay pending
    next to the new one. *)
Theorem checkKeysUpdateTimeout_cancels_when_updated now s :
  let s' := checkKeysUpdateTimeout now s in
  updateDeadlineTimer s' = Some (timerId (newDeadline now s))
  ∧ (isUpdated now (cache s) = true →
     (∀ t, t ∈ timers (process s) → updateDeadlineTimer s = Some (timerId t)) →
     timers (process s') = [newDeadline now s])
  ∧ (isUpdated now (cache s) = false →
     timers (process s') = timers (process s) ++ [newDeadline now s]).
Proof.
  intros s'. split; [apply checkKeysUpdateTimeout_frame|]. split.
  - intros Hup Hall. unfold s'.
    destruct (updateDeadlineTimer s) as [handle|] eqn:Hh.
    + rewrite (checkKeysUpdateTimeout_cleared now s handle Hup Hh).
      replace (filter (λ t, timerId t ≠ handle) (timers (process s))) with (@nil Timer);
        [reflexivity|].
      symmetry. apply filter_none.
      intros t Ht Hne. specialize (Hall t Ht). congruence.
    + rewrite checkKeysUpdateTimeout_kept by auto.
      destruct (timers (process s)) as [|t ts]; [reflexivity|].
      specialize (Hall t (list_elem_of_here _ _)). discriminate.
  - intros Hup. apply checkKeysUpdateTimeout_kept. auto.
Qed.

(** C5 as stated fails: at start-up [initialize] arms the watchdog, the first
    cycle ends one second later having read no meta (the storage is empty),
    and its re-arming leaves the first timer pending next to the new one. *)
Lemma two_deadline_timers_pending :
  ¬ (length (timers (process
       (initialize true 1700000000000 1700000001000 (sampleCycle [] None)
                   newKeysUpdateService))) ≤ 1)%nat.
Proof. vm_compute. lia. Qed.

Lemma deadlineCallback_frame s :
  cache (deadlineCallback s) = cache s
  ∧ prometheusService (deadlineCallback s) = prometheusService s
  ∧ timers (process (deadlineCallback s)) = timers (process s)
  ∧ updateDeadlineTimer (deadlineCallback s) = updateDeadlineTimer s.
Proof. unfold deadlineCallback. simpl. auto. Qed.

Lemma deadlineCallback_effect s :
  logs (process (deadlineCallback s))
  = logs (process s)
    ++ [LogError (KeyOutdatedError "There were no keys update more than 30 minutes"
                                   (lastBlockNumber (cache s)))]
  ∧ exitCode (process (deadlineCallback s)) = Some 1.
Proof. split; reflexivity. Qed.

Lemma fireDue_due now s t :
  t ∈ timers (process s) → fireAt t ≤ now → fireDue now s = deadlineCallback s.
Proof.
  intros Hin Hdue. unfold fireDue.
  replace (existsb _ _) with true; [reflexivity|].
  symmetry. apply existsb_exists. exists t. split; [by apply list_elem_of_In|].
  by apply bool_decide_eq_true.
Qed.

(** C6.  The timer armed at [now] is due thirty minutes later; when it is due
    it runs [deadlineCallback], which logs one [KeyOutdatedError] carrying the
    cached [lastBlockNumber] and ends the process with code 1, touching
    neither the cache nor the metrics; after that no cycle runs any more. *)
Theorem deadline_logs_last_block_and_exits wrapJobCatches now t s :
  now + 30 * 60 * 1000 ≤ t →
  let armed := checkKeysUpdateTimeout now s in
  let s' := fireDue t armed in
  s' = deadlineCallback armed
  ∧ logs (process s')
    = logs (process s)
      ++ [LogError (KeyOutdatedError "There were no keys update more than 30 minutes"
                                     (lastBlockNumber (cache s)))]
  ∧ exitCode (process s') = Some 1
  ∧ cache s' = cache s
  ∧ prometheusService s' = prometheusService s
  ∧ ∀ later env, cycleAt wrapJobCatches later env s' = s'.
Proof.
  intros Hdue armed s'.
  assert (Hfire : s' = deadlineCallback armed).
  { unfold s'. apply (fireDue_due t armed (newDeadline now s)).
    - unfold armed.
      destruct (updateDeadlineTimer s) as [handle|] eqn:Hh;
        [destruct (isUpdated now (cache s)) eqn:Hup|].
      + rewrite (checkKeysUpdateTimeout_cleared now s handle Hup Hh).
        apply elem_of_app. right. apply list_elem_of_here.
      + rewrite checkKeysUpdateTimeout_kept by auto.
        apply elem_of_app. right. apply list_elem_of_here.
      + rewrite checkKeysUpdateTimeout_kept by auto.
        apply elem_of_app. right. apply list_elem_of_here.
    - unfold newDeadline, UPDATE_KEYS_TIMEOUT_MS. simpl. lia. }
  destruct (checkKeysUpdateTimeout_frame now s) as (Hc & Hm & Hl & _).
  rewrite Hfire. unfold armed.
  destruct (deadlineCallback_effect (checkKeysUpdateTimeout now s)) as [Hlog Hexit].
  destruct (deadlineCallback_frame (checkKeysUpdateTimeout now s)) as (Hc' & Hm' & _).
  split; [reflexivity|]. split; [|split; [|split; [|split]]].
  - rewrite Hlog, Hl, Hc. reflexivity.
  - exact Hexit.
  - rewrite Hc'. exact Hc.
  - rewrite Hm'. exact Hm.
  - intros later env. unfold cycleAt, alive. rewrite Hexit. reflexivity.
Qed.

(** An instance of C6: armed at start-up, due thirty minutes later. *)
Lemma deadline_logs_last_block_and_exits_witness :
  let s' := fireDue 1700001800000 (checkKeysUpdateTimeout 1700000000000 newKeysUpdateService) in
  logs (process s')
  = [LogError (KeyOutdatedError "There were no keys update more than 30 minutes" None)]
  ∧ exitCode (process s') = Some 1.
Proof.
  destruct (deadline_logs_last_block_and_exits true 1700000000000 1700001800000
              newKeysUpdateService) as (_ & Hlog & Hexit & _).
  - lia.
  - split; [exact Hlog | exact Hexit].
Defined.

(** ** KeysUpdateService: the refresh cycle *)

Lemma updateMetricsCache_cases env c :
  (∃ operators meta,
      getOperatorsWithMeta env = Resolves (operators, meta)
      ∧ updateMetricsCache env c
        = (Returned (), publishedCache (stakingModules c) operators meta c))
  ∨ (∃ e, getOperatorsWithMeta env = Rejects e ∧ updateMetricsCache env c = (Thrown e, c)).
Proof.
  unfold updateMetricsCache, updateCuratedMetricsCache.
  destruct (getOperatorsWithMeta env) as [[operators meta]|e]; [left | right]; eauto.
Qed.

Lemma updateKeysJob_returned now env s s' :
  updateKeysJob now env s = (Returned (), s') →
  ∃ modules log1 operators meta s4,
    getStakingModules (chain env) (logs (process s)) = (Returned modules, log1)
    ∧ getOperatorsWithMeta env = Resolves (operators, meta)
    ∧ s' = checkKeysUpdateTimeout now s4
    ∧ cache s4 = publishedCache modules operators meta (cache s)
    ∧ sameRuntime s s4.
Proof.
  unfold updateKeysJob. intros H.
  destruct (getBlockHash env) as [blockHash|e0]; [|discriminate].
  destruct (getStakingModules (chain env) (logs (process s))) as [[modules|e1|c1] log1] eqn:Hfetch;
    [|discriminate..].
  cbv zeta in H.
  destruct (promiseAllMap _ _ _) as [[units|e2|c2] log2]; [|discriminate..].
  match type of H with context [updateMetricsCache env ?c] =>
    destruct (updateMetricsCache_cases env c) as [(operators & meta & Hreply & Hupd)
                                                 | (e3 & _ & Hupd)];
      rewrite Hupd in H end; [|discriminate].
  inversion H; subst; clear H.
  eexists modules, log1, operators, meta, _.
  split; [reflexivity|]. split; [exact Hreply|]. split; [reflexivity|].
  split; [reflexivity|]. repeat split.
Qed.

(** The three places where the job can throw. *)
Lemma updateKeysJob_thrown now env s e s1 :
  updateKeysJob now env s = (Thrown e, s1) →
  sameRuntime s s1
  ∧ prometheusService s1 = prometheusService s
  ∧ ((getBlockHash env = Rejects e ∧ s1 = s)
     ∨ (∃ log1, getStakingModules (chain env) (logs (process s)) = (Thrown e, log1)
                ∧ cache s1 = cache s)
     ∨ (∃ modules log1,
           getStakingModules (chain env) (logs (process s)) = (Returned modules, log1)
           ∧ cache s1 = withStakingModules modules (cache s))).
Proof.
  unfold updateKeysJob. intros H.
  destruct (getBlockHash env) as [blockHash|e0].
  2:{ inversion H; subst. repeat split. left. auto. }
  destruct (getStakingModules (chain env) (logs (process s))) as [[modules|e1|c1] log1] eqn:Hfetch;
    [| inversion H; subst; repeat split; right; left; eauto | discriminate].
  cbv zeta in H.
  destruct (promiseAllMap _ _ _) as [[units|e2|c2] log2];
    [| inversion H; subst; repeat split; right; right; eauto | discriminate].
  match type of H with context [updateMetricsCache env ?c] =>
    destruct (updateMetricsCache_cases env c) as [(operators & meta & _ & Hupd)
                                                 | (e3 & _ & Hupd)];
      rewrite Hupd in H end; [discriminate|].
  inversion H; subst. repeat split. right; right; eauto.
Qed.

Lemma updateKeysCaught_thrown wrapJobCatches now env s e s1 :
  updateKeysJob now env s = (Thrown e, s1) →
  updateKeysCaught wrapJobCatches now env s = loggerError e s1.
Proof.
  intros H. unfold updateKeysCaught, updateKeys, wrapJob. rewrite H.
  destruct wrapJobCatches; reflexivity.
Qed.

Lemma updateKeysCaught_returned wrapJobCatches now env s s' :
  updateKeysJob now env s = (Returned (), s') →
  updateKeysCaught wrapJobCatches now env s = s'.
Proof.
  intros H. unfold updateKeysCaught, updateKeys, wrapJob. rewrite H. reflexivity.
Qed.

(** C2, as the code has it.  A cycle that completes stores what it fetched
    without comparing it to what is cached: the module list and the operators
    are replaced, and [lastBlockNumber], [lastTimestampSec] and [curatedNonce]
    take the values of the fetched meta whenever a meta was read, also when its
    block number is smaller than the cached one; they keep their values only
    when the meta read is null.  Hence the cached block number and timestamp do
    not decrease in a cycle whose meta is null or not older than the cache. *)
Theorem completed_cycle_stores_fetched_meta wrapJobCatches now env s s1 :
  updateKeysJob now env s = (Returned (), s1) →
  let s' := updateKeysCaught wrapJobCatches now env s in
  ∃ modules log1 operators meta,
    getStakingModules (chain env) (logs (process s)) = (Returned modules, log1)
    ∧ getOperatorsWithMeta env = Resolves (operators, meta)
    ∧ stakingModules (cache s') = modules
    ∧ curatedOperators (cache s') = operators
    ∧ match meta with
      | Some m =>
          lastBlockNumber (cache s') = Some (RegistryMeta.blockNumber m)
          ∧ lastTimestampSec (cache s') = Some (RegistryMeta.timestamp m)
          ∧ curatedNonce (cache s') = Some (RegistryMeta.keysOpIndex m)
      | None =>
          lastBlockNumber (cache s') = lastBlockNumber (cache s)
          ∧ lastTimestampSec (cache s') = lastTimestampSec (cache s)
          ∧ curatedNonce (cache s') = curatedNonce (cache s)
      end
    ∧ (∀ cached, lastBlockNumber (cache s) = Some cached →
         (∀ m, meta = Some m → cached ≤ RegistryMeta.blockNumber m) →
         ∃ b, lastBlockNumber (cache s') = Some b ∧ cached ≤ b)
    ∧ (∀ cached, lastTimestampSec (cache s) = Some cached →
         (∀ m, meta = Some m → cached ≤ RegistryMeta.timestamp m) →
         ∃ t, lastTimestampSec (cache s') = Some t ∧ cached ≤ t).
Proof.
  intros H s'. unfold s'. rewrite (updateKeysCaught_returned _ _ _ _ _ H).
  destruct (updateKeysJob_returned _ _ _ _ H)
    as (modules & log1 & operators & meta & s4 & Hfetch & Hreply & -> & Hcache & _).
  destruct (checkKeysUpdateTimeout_frame now s4) as (-> & _).
  rewrite Hcache.
  exists modules, log1, operators, meta.
  split; [exact Hfetch|]. split; [exact Hreply|].
  split; [reflexivity|]. split; [reflexivity|].
  split; [destruct meta; simpl; auto|]. split.
  - intros cached Hc Hle. destruct meta as [m|]; simpl.
    + eexists. split; [reflexivity|]. by apply Hle.
    + exists cached. split; [assumption | lia].
  - intros cached Hc Hle. destruct meta as [m|]; simpl.
    + eexists. split; [reflexivity|]. by apply Hle.
    + exists cached. split; [assumption | lia].
Qed.

(** C2 as stated fails: the meta read at block 99 replaces the cached block
    100. *)
Lemma stale_meta_replaces_cached_meta :
  ¬ (lastBlockNumber (cache afterBlock100) = Some 100 →
     99 < 100 →
     cache (updateKeysCaught true 1700000013000 cycleBlock99 afterBlock100)
     = cache afterBlock100).
Proof.
  intros H. specialize (H eq_refl eq_refl).
  apply (f_equal lastBlockNumber) in H. vm_compute in H. discriminate.
Qed.

(** An instance of the amended C2: that same cycle. *)
Lemma completed_cycle_stores_fetched_meta_witness :
  lastBlockNumber (cache (updateKeysCaught true 1700000013000 cycleBlock99 afterBlock100))
  = Some 99.
Proof.
  destruct (completed_cycle_stores_fetched_meta true 1700000013000 cycleBlock99 afterBlock100
              (updateKeysJob 1700000013000 cycleBlock99 afterBlock100).2)
    as (modules & log1 & operators & meta & _ & Hreply & _ & _ & Hmeta & _).
  - vm_compute. reflexivity.
  - injection Hreply as <- <-. destruct Hmeta as (Hblock & _). exact Hblock.
Defined.

(** C4, as the code has it.  When the job of a cycle throws, nothing is stored
    after the throw: the cached operators and meta fields keep their values,
    the metrics are not touched, the watchdog is not re-armed (timers and
    handle are the same), the process goes on and the error is the last thing
    logged.  The module list keeps its value when the block-hash read or the
    module fetch threw; when a later step threw (the key update of a module,
    the read of operators and meta) the module list is already the fetched
    one. *)
Theorem failed_cycle_stores_nothing_after_throw wrapJobCatches now env s e s1 :
  updateKeysJob now env s = (Thrown e, s1) →
  let s' := updateKeysCaught wrapJobCatches now env s in
  lastTimestampSec (cache s') = lastTimestampSec (cache s)
  ∧ lastBlockNumber (cache s') = lastBlockNumber (cache s)
  ∧ curatedNonce (cache s') = curatedNonce (cache s)
  ∧ curatedOperators (cache s') = curatedOperators (cache s)
  ∧ ((getBlockHash env = Rejects e ∧ cache s' = cache s)
     ∨ (∃ log1, getStakingModules (chain env) (logs (process s)) = (Thrown e, log1)
                ∧ cache s' = cache s)
     ∨ (∃ log1, getStakingModules (chain env) (logs (process s))
                = (Returned (stakingModules (cache s')), log1)))
  ∧ list.last (logs (process s')) = Some (LogError e)
  ∧ sameRuntime s s'
  ∧ prometheusService s' = prometheusService s.
Proof.
  intros H s'. unfold s'. rewrite (updateKeysCaught_thrown _ _ _ _ _ _ H).
  destruct (updateKeysJob_thrown _ _ _ _ _ H) as (Hrt & Hprom & Hcases).
  assert (Hc : cache (loggerError e s1) = cache s1) by reflexivity.
  rewrite !Hc.
  assert (Hfields :
            lastTimestampSec (cache s1) = lastTimestampSec (cache s)
            ∧ lastBlockNumber (cache s1) = lastBlockNumber (cache s)
            ∧ curatedNonce (cache s1) = curatedNonce (cache s)
            ∧ curatedOperators (cache s1) = curatedOperators (cache s)).
  { destruct Hcases as [[_ ->] | [(log1 & _ & ->) | (modules & log1 & _ & ->)]];
      repeat split. }
  destruct Hfields as (H1 & H2 & H3 & H4).
  repeat (split; [assumption|]).
  split; [|split; [|split]].
  - destruct Hcases as [[Hb ->] | [(log1 & Hf & ->) | (modules & log1 & Hf & ->)]].
    + left. auto.
    + right; left. eauto.
    + right; right. exists log1. exact Hf.
  - unfold loggerError. simpl. apply last_snoc.
  - exact Hrt.
  - exact Hprom.
Qed.

(** C4 as stated fails: the module list is fetched, then the key update of the
    curated module throws; the fetched list is already in the cache. *)
Lemma failed_key_update_leaves_new_module_list :
  ¬ ((updateKeysJob 1700000001000 sampleCycleKeysFail newKeysUpdateService).1
     = Thrown (Error "could not detect network") →
     cache (updateKeysCaught true 1700000001000 sampleCycleKeysFail newKeysUpdateService)
     = cache newKeysUpdateService).
Proof.
  intros H. specialize (H eq_refl).
  apply (f_equal stakingModules) in H. vm_compute in H. discriminate.
Qed.

(** An instance of the amended C4: that same cycle. *)
Lemma failed_cycle_stores_nothing_after_throw_witness :
  let s' := updateKeysCaught true 1700000001000 sampleCycleKeysFail newKeysUpdateService in
  curatedOperators (cache s') = []
  ∧ list.last (logs (process s')) = Some (LogError (Error "could not detect network"))
  ∧ timers (process s') = [].
Proof.
  destruct (failed_cycle_stores_nothing_after_throw true 1700000001000 sampleCycleKeysFail
              newKeysUpdateService (Error "could not detect network")
              (updateKeysJob 1700000001000 sampleCycleKeysFail newKeysUpdateService).2)
    as (_ & _ & _ & Hops & _ & Hlog & (Htimers & _) & _).
  - vm_compute. reflexivity.
  - split; [exact Hops|]. split; [exact Hlog | exact Htimers].
Defined.

(** *** How a cycle ends depends on the replies only *)

Lemma transformModule_outcome_indep chain m l l' :
  (transformModule chain m l).1 = (transformModule chain m l').1.
Proof.
  unfold transformModule. repeat case_match; reflexivity.
Qed.

Lemma updateModuleKeys_outcome_indep env entry l l' :
  (updateModuleKeys env entry l).1 = (updateModuleKeys env entry l').1.
Proof.
  unfold updateModuleKeys. repeat case_match; reflexivity.
Qed.

Lemma promiseAllMap_outcome_indep {A B : Type} (f : A → Logged B) (xs : list A) :
  (∀ x l l', (f x l).1 = (f x l').1) →
  ∀ l l', (promiseAllMap f xs l).1 = (promiseAllMap f xs l').1.
Proof.
  intros Hf. induction xs as [|x xs IH]; intros l l'; simpl; [reflexivity|].
  specialize (Hf x l l').
  destruct (f x l) as [[y|e|c] l1], (f x l') as [[y'|e'|c'] l1'];
    simpl in Hf; try discriminate; inversion Hf; subst; try reflexivity.
  - specialize (IH l1 l1').
    destruct (promiseAllMap f xs l1) as [[ys|e|c] l2],
             (promiseAllMap f xs l1') as [[ys'|e'|c'] l2'];
      simpl in IH; try discriminate; inversion IH; subst; reflexivity.
  - specialize (IH l1 l1').
    destruct (promiseAllMap f xs l1) as [[ys|e|c] l2],
             (promiseAllMap f xs l1') as [[ys'|e0|c'] l2'];
      simpl in IH; try discriminate; inversion IH; subst; reflexivity.
Qed.

Lemma getStakingModules_outcome_indep chain l l' :
  (getStakingModules chain l).1 = (getStakingModules chain l').1.
Proof.
  unfold getStakingModules.
  destruct (getStakingRouter chain); [|reflexivity].
  destruct (contract_getStakingModules chain); [|reflexivity].
  apply promiseAllMap_outcome_indep. apply transformModule_outcome_indep.
Qed.

Lemma updateKeysJob_outcome_indep now now' env s s' :
  (updateKeysJob now env s).1 = (updateKeysJob now' env s').1.
Proof.
  unfold updateKeysJob.
  destruct (getBlockHash env); [|reflexivity].
  pose proof (getStakingModules_outcome_indep (chain env)
                (logs (process s)) (logs (process s'))) as Hf.
  destruct (getStakingModules (chain env) (logs (process s))) as [[ms|e|c] l1],
           (getStakingModules (chain env) (logs (process s'))) as [[ms'|e'|c'] l1'];
    simpl in Hf; try discriminate; inversion Hf; subst; try reflexivity.
  cbv zeta.
  cbn [stakingModules cache withCache withStakingModules logs process withProcess withLogs].
  pose proof (promiseAllMap_outcome_indep (updateModuleKeys env) (imap pair ms')
                (updateModuleKeys_outcome_indep env) l1 l1') as Hp.
  destruct (promiseAllMap (updateModuleKeys env) (imap pair ms') l1) as [[us|e|c] l2],
           (promiseAllMap (updateModuleKeys env) (imap pair ms') l1') as [[us'|e'|c'] l2'];
    simpl in Hp; try discriminate; inversion Hp; subst; try reflexivity.
  repeat match goal with |- context [updateMetricsCache env ?c] =>
    let H := fresh "Hupd" in
    destruct (updateMetricsCache_cases env c) as [(? & ? & ? & H) | (? & ? & H)];
      rewrite H; clear H end;
    simpl; congruence.
Qed.

Lemma fireDue_not_due now s :
  (∀ t, t ∈ timers (process s) → now < fireAt t) → fireDue now s = s.
Proof.
  intros Hall. unfold fireDue.
  destruct (existsb _ _) eqn:Hex; [|reflexivity].
  apply existsb_exists in Hex as (t & Hin & Hdue).
  apply bool_decide_eq_true in Hdue. apply list_elem_of_In in Hin.
  specialize (Hall t Hin). lia.
Qed.

Lemma cycleAt_keeps_single_deadline wrapJobCatches armedAt now env s :
  singleDeadline armedAt s →
  now < armedAt + UPDATE_KEYS_TIMEOUT_MS →
  completes env →
  readsFreshMeta now env →
  singleDeadline now (cycleAt wrapJobCatches now env s).
Proof.
  intros (Halive & t & Htimers & Hhandle & Hfire) Hnow Hcompl
         (operators & m & Hreply & Hnz & Hfresh).
  unfold cycleAt. rewrite Halive.
  rewrite fireDue_not_due.
  2:{ intros t' Ht'. rewrite Htimers in Ht'. apply list_elem_of_singleton in Ht' as ->. lia. }
  rewrite Halive.
  destruct (updateKeysJob now env s) as [out s'] eqn:Hjob.
  assert (Hout : out = Returned ()).
  { unfold completes, jobOutcome in Hcompl.
    rewrite <- (updateKeysJob_outcome_indep now 0 env s newKeysUpdateService) in Hcompl.
    rewrite Hjob in Hcompl. exact Hcompl. }
  subst out. rewrite (updateKeysCaught_returned _ _ _ _ _ Hjob).
  destruct (updateKeysJob_returned _ _ _ _ Hjob)
    as (modules & log1 & operators' & meta & s4 & _ & Hreply' & -> & Hcache
        & Ht4 & Hn4 & He4 & Hh4).
  rewrite Hreply in Hreply'. injection Hreply' as <- <-.
  assert (Hup : isUpdated now (cache s4) = true).
  { apply isUpdated_spec. exists (RegistryMeta.timestamp m).
    rewrite Hcache. simpl. auto. }
  destruct (checkKeysUpdateTimeout_frame now s4) as (_ & _ & _ & Hexit & Hh').
  split.
  - unfold alive in *. rewrite Hexit, He4. exact Halive.
  - exists (newDeadline now s4). split; [|split].
    + rewrite (checkKeysUpdateTimeout_cleared now s4 (timerId t) Hup) by congruence.
      rewrite Ht4, Htimers. rewrite filter_none; [reflexivity|].
      intros x Hx. apply list_elem_of_singleton in Hx as ->. tauto.
    + exact Hh'.
    + reflexivity.
Qed.

Lemma runCycles_keeps_single_deadline wrapJobCatches cycles :
  ∀ armedAt s,
    singleDeadline armedAt s →
    keepCompleting armedAt cycles →
    readFreshMeta cycles →
    singleDeadline (lastEnd armedAt cycles) (runCycles wrapJobCatches cycles s).
Proof.
  induction cycles as [|[now env] rest IH]; intros armedAt s Hinv Hkeep Hfresh; simpl.
  - exact Hinv.
  - destruct Hkeep as ([_ Hnow] & Hcompl & Hkeep). destruct Hfresh as [Hf Hfresh].
    apply IH; [|assumption..].
    by apply cycleAt_keeps_single_deadline with (armedAt := armedAt).
Qed.

Lemma fireDue_dueBy deadline now s :
  dueBy deadline s → deadline ≤ now → alive (fireDue now s) = false.
Proof.
  intros [Hdead | (t & Hin & Hdue)] Hnow.
  - unfold fireDue. destruct (existsb _ _); [reflexivity | exact Hdead].
  - rewrite (fireDue_due now s t Hin) by lia. reflexivity.
Qed.

Lemma cycleAt_failing_dueBy wrapJobCatches deadline now env s :
  fails env → dueBy deadline s → dueBy deadline (cycleAt wrapJobCatches now env s).
Proof.
  intros [e He] Hdue. unfold cycleAt.
  destruct (alive s) eqn:Halive; [|left; exact Halive].
  destruct (alive (fireDue now s)) eqn:Halive'; [|left; exact Halive'].
  assert (Hsame : fireDue now s = s).
  { unfold fireDue in *. destruct (existsb _ _); [discriminate | reflexivity]. }
  rewrite Hsame.
  destruct (updateKeysJob now env s) as [out s1] eqn:Hjob.
  assert (Hout : out = Thrown e).
  { unfold jobOutcome in He.
    rewrite <- (updateKeysJob_outcome_indep now 0 env s newKeysUpdateService) in He.
    rewrite Hjob in He. exact He. }
  subst out. rewrite (updateKeysCaught_thrown _ _ _ _ _ _ Hjob).
  destruct (updateKeysJob_thrown _ _ _ _ _ Hjob) as ((Ht & _) & _).
  destruct Hdue as [Hdead | (t & Hin & Hle)]; [congruence|].
  right. exists t. split; [|exact Hle].
  unfold loggerError. simpl. rewrite Ht. exact Hin.
Qed.

Lemma runCycles_failing_dueBy wrapJobCatches deadline cycles :
  ∀ s, Forall (λ cycle, fails cycle.2) cycles →
       dueBy deadline s → dueBy deadline (runCycles wrapJobCatches cycles s).
Proof.
  induction cycles as [|[now env] rest IH]; intros s Hall Hdue; simpl; [exact Hdue|].
  inversion Hall; subst. apply IH; [assumption|].
  by apply cycleAt_failing_dueBy.
Qed.

(** C3, as the code has it.  The watchdog does not record the wall-clock time
    of a completed cycle: it compares the clock with [lastTimestampSec], the
    timestamp of the meta that the cycle read.  (1) From start-up on, as long
    as every cycle completes less than the timeout after the previous one and
    reads a meta whose timestamp is non-zero and less than the timeout behind
    the clock, the process is alive and exactly one deadline timer is pending,
    due one timeout after the end of the last cycle.  (2) After any re-arming
    at [armedAt], if the cycles that follow all fail, the process has exited
    once the clock reaches [armedAt] plus the timeout. *)
Theorem watchdog_rearmed_by_fresh_cycles wrapJobCatches :
  (∀ start firstEnd env cycles s,
      alive s = true →
      timers (process s) = [] →
      keepCompleting start ((firstEnd, env) :: cycles) →
      readFreshMeta ((firstEnd, env) :: cycles) →
      let s' := runCycles wrapJobCatches cycles
                  (initialize wrapJobCatches start firstEnd env s) in
      alive s' = true
      ∧ ∃ t, timers (process s') = [t]
             ∧ fireAt t = lastEnd firstEnd cycles + UPDATE_KEYS_TIMEOUT_MS)
  ∧ (∀ armedAt failing now s,
        Forall (λ cycle, fails cycle.2) failing →
        armedAt + UPDATE_KEYS_TIMEOUT_MS ≤ now →
        alive (fireDue now
                 (runCycles wrapJobCatches failing (checkKeysUpdateTimeout armedAt s)))
        = false).
Proof.
  split.
  - intros start firstEnd env cycles s Halive Htimers Hkeep Hfresh s'.
    destruct Hkeep as ([_ Hnow] & Hcompl & Hkeep). destruct Hfresh as [Hf Hfresh].
    assert (Harmed : singleDeadline start (checkKeysUpdateTimeout start s)).
    { destruct (checkKeysUpdateTimeout_frame start s) as (_ & _ & _ & Hexit & Hh).
      split; [unfold alive in *; rewrite Hexit; exact Halive|].
      exists (newDeadline start s). split; [|split; [exact Hh | reflexivity]].
      destruct (updateDeadlineTimer s) as [handle|] eqn:Hhandle;
        [destruct (isUpdated start (cache s)) eqn:Hup|].
      - rewrite (checkKeysUpdateTimeout_cleared start s handle Hup Hhandle), Htimers.
        reflexivity.
      - rewrite checkKeysUpdateTimeout_kept by auto. rewrite Htimers. reflexivity.
      - rewrite checkKeysUpdateTimeout_kept by auto. rewrite Htimers. reflexivity. }
    assert (Hfirst : singleDeadline firstEnd
                       (initialize wrapJobCatches start firstEnd env s)).
    { unfold initialize.
      pose proof (cycleAt_keeps_single_deadline wrapJobCatches start firstEnd env
                    _ Harmed Hnow Hcompl Hf) as (Ha & t & Ht & Hh & Hfire).
      rewrite Ha. split; [exact Ha|]. exists t. auto. }
    destruct (runCycles_keeps_single_deadline wrapJobCatches cycles firstEnd _
                Hfirst Hkeep Hfresh) as (Ha & t & Ht & _ & Hfire).
    split; [exact Ha|]. exists t. auto.
  - intros armedAt failing now s Hall Hnow.
    apply fireDue_dueBy with (deadline := armedAt + UPDATE_KEYS_TIMEOUT_MS); [|exact Hnow].
    apply runCycles_failing_dueBy; [exact Hall|].
    right. exists (newDeadline armedAt s). split; [|reflexivity].
    destruct (updateDeadlineTimer s) as [handle|] eqn:Hhandle;
      [destruct (isUpdated armedAt (cache s)) eqn:Hup|].
    + rewrite (checkKeysUpdateTimeout_cleared armedAt s handle Hup Hhandle).
      apply elem_of_app. right. apply list_elem_of_here.
    + rewrite checkKeysUpdateTimeout_kept by auto.
      apply elem_of_app. right. apply list_elem_of_here.
    + rewrite checkKeysUpdateTimeout_kept by auto.
      apply elem_of_app. right. apply list_elem_of_here.
Qed.

Ltac solve_keepCompleting :=
  simpl;
  repeat match goal with
         | |- True => exact I
         | |- _ ≤ _ < _ => unfold UPDATE_KEYS_TIMEOUT_MS; lia
         | |- completes _ => unfold completes, jobOutcome; vm_compute; reflexivity
         | |- _ ∧ _ => split
         end.

Ltac solve_readFreshMeta :=
  simpl;
  repeat match goal with
         | |- True => exact I
         | |- readsFreshMeta _ _ =>
             eexists _, _; split; [reflexivity|];
             split; [simpl; lia | simpl; unfold UPDATE_KEYS_TIMEOUT_MS; lia]
         | |- _ ∧ _ => split
         end.

(** C3 as stated fails: after start-up four cycles complete, ten minutes
    apart, each reading the same old meta; no re-arming cancels the timer set
    at start-up, which is due at the thirtieth minute, and the process exits
    although cycles kept completing well within the timeout. *)
Lemma watchdog_exits_although_cycles_complete :
  ¬ (keepCompleting 1700000000000
       [(1700000001000, cycleOldMeta); (1700000601000, cycleOldMeta);
        (1700001201000, cycleOldMeta); (1700001801000, cycleOldMeta)] →
     alive (runCycles true
              [(1700000601000, cycleOldMeta); (1700001201000, cycleOldMeta);
               (1700001801000, cycleOldMeta)]
              (initialize true 1700000000000 1700000001000 cycleOldMeta
                          newKeysUpdateService))
     = true).
Proof.
  intros H.
  assert (Hkeep : keepCompleting 1700000000000
            [(1700000001000, cycleOldMeta); (1700000601000, cycleOldMeta);
             (1700001201000, cycleOldMeta); (1700001801000, cycleOldMeta)])
    by solve_keepCompleting.
  apply H in Hkeep. vm_compute in Hkeep. discriminate.
Qed.

(** An instance of the amended C3: the same schedule, each cycle reading a
    meta a few seconds old; and a start-up after which the only cycle fails. *)
Lemma watchdog_rearmed_by_fresh_cycles_witness :
  alive (runCycles true
           [(1700000601000, cycleMetaAt 1700000590); (1700001201000, cycleMetaAt 1700001190);
            (1700001801000, cycleMetaAt 1700001790)]
           (initialize true 1700000000000 1700000001000 (cycleMetaAt 1699999990)
                       newKeysUpdateService))
  = true
  ∧ alive (fireDue 1700001800000
             (runCycles true [(1700000001000, sampleCycleKeysFail)]
                        (checkKeysUpdateTimeout 1700000000000 newKeysUpdateService)))
    = false.
Proof.
  destruct (watchdog_rearmed_by_fresh_cycles true) as [Hlive Hexit].
  split.
  - destruct (Hlive 1700000000000 1700000001000 (cycleMetaAt 1699999990)
                [(1700000601000, cycleMetaAt 1700000590);
                 (1700001201000, cycleMetaAt 1700001190);
                 (1700001801000, cycleMetaAt 1700001790)]
                newKeysUpdateService) as [Halive _].
    + reflexivity.
    + reflexivity.
    + solve_keepCompleting.
    + solve_readFreshMeta.
    + exact Halive.
  - apply (Hexit 1700000000000 [(1700000001000, sampleCycleKeysFail)] 1700001800000
             newKeysUpdateService).
    + constructor; [|constructor].
      exists (Error "could not detect network"). vm_compute. reflexivity.
    + unfold UPDATE_KEYS_TIMEOUT_MS. lia.
Defined.

(** An instance of the amended C5: a re-arming twelve seconds after a cycle
    that read a fresh meta leaves exactly the new timer pending. *)
Lemma checkKeysUpdateTimeout_cancels_when_updated_witness :
  timers (process (checkKeysUpdateTimeout 1700000013000 afterBlock100))
  = [newDeadline 1700000013000 afterBlock100].
Proof.
  destruct (checkKeysUpdateTimeout_cancels_when_updated 1700000013000 afterBlock100)
    as (_ & Hone & _).
  apply Hone.
  - vm_compute. reflexivity.
  - assert (Htimers : timers (process afterBlock100)
                      = [{| timerId := 1; fireAt := 1700001801000 |}])
      by (vm_compute; reflexivity).
    intros t Ht. rewrite Htimers in Ht.
    apply list_elem_of_singleton in Ht as ->. reflexivity.
Defined.

(** An instance of C9: operator 1 is present in one cycle and absent in the
    next. *)
Lemma setCuratedOperatorsMetric_reset_and_rebuilt_witness :
  let previous :=
    setCuratedOperatorsMetric [sampleOperator 0 7 10; sampleOperator 1 2 4] ∅ in
  previous !! (1, 1, "true") = Some 2
  ∧ setCuratedOperatorsMetric [sampleOperator 0 7 10] previous !! (1, 1, "true") = None
  ∧ setCuratedOperatorsMetric [sampleOperator 0 7 10] previous !! (1, 1, "false") = None.
Proof.
  intros previous. split; [vm_compute; reflexivity|].
  destruct (setCuratedOperatorsMetric_reset_and_rebuilt [sampleOperator 0 7 10] previous)
    as (_ & _ & Hgone).
  apply (Hgone 1). intros op Hop.
  apply list_elem_of_singleton in Hop as ->. simpl. lia.
Defined.

(** * Further properties of the modelled code *)

(** ** StakingRouterFetchService: how [getStakingModules] ends *)

Lemma toNumber_fits x : fits53 x → toNumber x = Returned x.
Proof. unfold toNumber, fits53. intros H. by rewrite bool_decide_eq_true_2. Qed.

Lemma toNumber_overflow x :
  ¬ fits53 x → toNumber x = Thrown (NumericFault "overflow" "toNumber" (pretty x)).
Proof. unfold toNumber, fits53. intros H. by rewrite bool_decide_eq_false_2. Qed.

Lemma transformModule_returned_iff chain m log sm log' :
  transformModule chain m log = (Returned sm, log')
  ↔ transformable chain m ∧ carries m sm ∧ log' = log.
Proof.
  unfold transformable, carries. split.
  - unfold transformModule.
    destruct (contract_getStakingModuleIsActive chain (ContractModule.id m)) as [b|e];
      [|discriminate].
    case_bool_decide as Hid; [discriminate|].
    assert (Hid1 : ContractModule.id m = 1)
      by (destruct (decide (ContractModule.id m = 1)); tauto).
    destruct (decide (fits53 (ContractModule.lastDepositAt m))) as [H1|H1];
      [rewrite (toNumber_fits _ H1) | rewrite (toNumber_overflow _ H1); discriminate].
    destruct (decide (fits53 (ContractModule.lastDepositBlock m))) as [H2|H2];
      [rewrite (toNumber_fits _ H2) | rewrite (toNumber_overflow _ H2); discriminate].
    destruct (decide (fits53 (ContractModule.exitedValidatorsCount m))) as [H3|H3];
      [rewrite (toNumber_fits _ H3) | rewrite (toNumber_overflow _ H3); discriminate].
    intros H. inversion H; subst. simpl. repeat split; eauto.
  - intros ((Hid & (b & Hact) & H1 & H2 & H3) & Hc & ->).
    unfold transformModule. rewrite Hact.
    rewrite bool_decide_eq_false_2 by (intros Hne; contradiction).
    rewrite (toNumber_fits _ H1), (toNumber_fits _ H2), (toNumber_fits _ H3).
    destruct sm. simpl in Hc.
    destruct Hc as (-> & -> & -> & -> & -> & -> & -> & -> & -> & -> & ->).
    reflexivity.
Qed.

Lemma transformModule_thrown chain m log e log' :
  transformModule chain m log = (Thrown e, log') → throwsOn chain m e ∧ log' = log.
Proof.
  unfold transformModule, throwsOn.
  destruct (contract_getStakingModuleIsActive chain (ContractModule.id m)) as [b|e0].
  2:{ intros H. inversion H; subst. auto. }
  case_bool_decide as Hid; [discriminate|].
  assert (Hid1 : ContractModule.id m = 1)
    by (destruct (decide (ContractModule.id m = 1)); tauto).
  destruct (decide (fits53 (ContractModule.lastDepositAt m))) as [H1|H1].
  2:{ rewrite (toNumber_overflow _ H1). intros H; inversion H; subst.
      split; [right; split; [exact Hid1|]|reflexivity].
      exists (ContractModule.lastDepositAt m).
      split; [apply list_elem_of_here | auto]. }
  rewrite (toNumber_fits _ H1).
  destruct (decide (fits53 (ContractModule.lastDepositBlock m))) as [H2|H2].
  2:{ rewrite (toNumber_overflow _ H2). intros H; inversion H; subst.
      split; [right; split; [exact Hid1|]|reflexivity].
      exists (ContractModule.lastDepositBlock m).
      split; [apply list_elem_of_further, list_elem_of_here | auto]. }
  rewrite (toNumber_fits _ H2).
  destruct (decide (fits53 (ContractModule.exitedValidatorsCount m))) as [H3|H3].
  2:{ rewrite (toNumber_overflow _ H3). intros H; inversion H; subst.
      split; [right; split; [exact Hid1|]|reflexivity].
      exists (ContractModule.exitedValidatorsCount m).
      split; [do 2 apply list_elem_of_further; apply list_elem_of_here | auto]. }
  rewrite (toNumber_fits _ H3). discriminate.
Qed.

Lemma transformModule_exited chain m log c log' :
  transformModule chain m log = (Exited c, log') →
  c = 1 ∧ ContractModule.id m ≠ 1
  ∧ (∃ b, contract_getStakingModuleIsActive chain (ContractModule.id m) = Resolves b)
  ∧ log' = log ++ [unknownModuleError m].
Proof.
  intros H.
  destruct (transformModule_cases chain m log)
    as [(sm & Hx & _) | [(e & Hx & _) | (Hx & Hid & Hact)]];
    rewrite Hx in H; inversion H; subst; auto.
Qed.

Lemma transformModule_passes chain m log :
  passesCheck chain m → ∀ c log', transformModule chain m log ≠ (Exited c, log').
Proof.
  intros Hp c log' H. apply transformModule_exited in H as (_ & Hid & (b & Hact) & _).
  destruct Hp as [Hp | (e & Hp)]; congruence.
Qed.

Lemma promiseAllMap_transform_returned_iff chain modules :
  ∀ log ms log',
    promiseAllMap (transformModule chain) modules log = (Returned ms, log')
    ↔ Forall (transformable chain) modules ∧ Forall2 carries modules ms ∧ log' = log.
Proof.
  induction modules as [|x rest IH]; intros log ms log'; simpl.
  - split.
    + intros H. inversion H; subst. repeat split; constructor.
    + intros (_ & H2 & ->). inversion H2; subst. reflexivity.
  - split.
    + intros H.
      destruct (transformModule chain x log) as [[sm|e|c] l1] eqn:Hx.
      * apply transformModule_returned_iff in Hx as (Ht & Hc & ->).
        destruct (promiseAllMap (transformModule chain) rest log) as [[ys|e|c] l2] eqn:Hrest;
          inversion H; subst.
        apply IH in Hrest as (Hall & Hall2 & ->).
        repeat split; constructor; assumption.
      * destruct (promiseAllMap (transformModule chain) rest l1) as [[ys|e'|c] l2];
          inversion H.
      * inversion H.
    + intros (Hall & Hall2 & ->).
      inversion Hall as [|? ? Hx Hrest]; subst.
      inversion Hall2 as [|? sm ? ys Hc Hcs]; subst.
      rewrite (proj2 (transformModule_returned_iff chain x log sm log)) by auto.
      rewrite (proj2 (IH log ys log)) by auto. reflexivity.
Qed.

(** X1.  [getStakingModules] returns a list exactly when the router address
    and the module list are read, and for every listed module the id is 1, the
    activity read is answered and the three big numbers fit 53 bits; the list
    returned then has one entity per fetched module, in order, carrying the
    fetched fields and the curated type, and the only thing logged is the
    count of fetched modules. *)
Theorem getStakingModules_returns_iff chain log ms log' :
  getStakingModules chain log = (Returned ms, log')
  ↔ ∃ address modules,
      getStakingRouter chain = Resolves address
      ∧ contract_getStakingModules chain = Resolves modules
      ∧ Forall (transformable chain) modules
      ∧ Forall2 carries modules ms
      ∧ log' = log ++ [fetchedLog modules].
Proof.
  unfold getStakingModules, fetchedLog. split.
  - destruct (getStakingRouter chain) as [address|e]; [|discriminate].
    destruct (contract_getStakingModules chain) as [modules|e]; [|discriminate].
    intros H. apply promiseAllMap_transform_returned_iff in H as (H1 & H2 & ->).
    exists address, modules. auto.
  - intros (address & modules & -> & -> & H1 & H2 & ->).
    apply promiseAllMap_transform_returned_iff. auto.
Qed.


Lemma promiseAllMap_transform_exited chain modules :
  ∀ log c log',
    promiseAllMap (transformModule chain) modules log = (Exited c, log') →
    c = 1
    ∧ ∃ m, m ∈ modules
           ∧ ContractModule.id m ≠ 1
           ∧ (∃ b, contract_getStakingModuleIsActive chain (ContractModule.id m) = Resolves b)
           ∧ log' = log ++ [unknownModuleError m].
Proof.
  induction modules as [|x rest IH]; intros log c log' H; simpl in H; [discriminate|].
  destruct (transformModule chain x log) as [[sm|e|c0] l1] eqn:Hx.
  - apply transformModule_returned_iff in Hx as (_ & _ & ->).
    destruct (promiseAllMap (transformModule chain) rest log) as [[ys|e|c1] l2] eqn:Hrest;
      inversion H; subst.
    apply IH in Hrest as (-> & m & Hin & Hm).
    split; [reflexivity|]. exists m. split; [by apply list_elem_of_further | exact Hm].
  - apply transformModule_thrown in Hx as (_ & ->).
    destruct (promiseAllMap (transformModule chain) rest log) as [[ys|e'|c1] l2] eqn:Hrest;
      inversion H; subst.
    apply IH in Hrest as (-> & m & Hin & Hm).
    split; [reflexivity|]. exists m. split; [by apply list_elem_of_further | exact Hm].
  - inversion H; subst.
    apply transformModule_exited in Hx as (-> & Hid & Hact & ->).
    split; [reflexivity|]. exists x. split; [apply list_elem_of_here | auto].
Qed.

Lemma promiseAllMap_transform_passes chain modules log :
  Forall (passesCheck chain) modules →
  ∀ c log', promiseAllMap (transformModule chain) modules log ≠ (Exited c, log').
Proof.
  intros Hall c log' H.
  apply promiseAllMap_transform_exited in H as (_ & m & Hin & Hid & (b & Hact) & _).
  rewrite list.Forall_forall in Hall.
  destruct (Hall m Hin) as [Hp | (e & Hp)]; congruence.
Qed.

Lemma promiseAllMap_transform_thrown chain modules :
  ∀ log e log',
    promiseAllMap (transformModule chain) modules log = (Thrown e, log') →
    log' = log ∧ ∃ m, m ∈ modules ∧ throwsOn chain m e.
Proof.
  induction modules as [|x rest IH]; intros log e log' H; simpl in H; [discriminate|].
  destruct (transformModule chain x log) as [[sm|e0|c0] l1] eqn:Hx.
  - apply transformModule_returned_iff in Hx as (_ & _ & ->).
    destruct (promiseAllMap (transformModule chain) rest log) as [[ys|e1|c1] l2] eqn:Hrest;
      inversion H; subst.
    apply IH in Hrest as (-> & m & Hin & Hm).
    split; [reflexivity|]. exists m. split; [by apply list_elem_of_further | exact Hm].
  - apply transformModule_thrown in Hx as (Hthrow & ->).
    destruct (promiseAllMap (transformModule chain) rest log) as [[ys|e1|c1] l2] eqn:Hrest;
      inversion H; subst.
    + apply promiseAllMap_transform_returned_iff in Hrest as (_ & _ & ->).
      split; [reflexivity|]. exists x. split; [apply list_elem_of_here | exact Hthrow].
    + apply IH in Hrest as (-> & _).
      split; [reflexivity|]. exists x. split; [apply list_elem_of_here | exact Hthrow].
  - inversion H.
Qed.

(** X2.  When [getStakingModules] ends the process, the exit code is 1, the
    router address and the module list were read, and among the listed modules
    there is one whose id is not 1 and whose activity read was answered; the
    last thing logged is the error naming that module, after the count of
    fetched modules. *)
Theorem getStakingModules_exits_only_on_unknown_id chain log c log' :
  getStakingModules chain log = (Exited c, log') →
  c = 1
  ∧ ∃ address modules m,
      getStakingRouter chain = Resolves address
      ∧ contract_getStakingModules chain = Resolves modules
      ∧ m ∈ modules
      ∧ ContractModule.id m ≠ 1
      ∧ (∃ b, contract_getStakingModuleIsActive chain (ContractModule.id m) = Resolves b)
      ∧ fetchedLog modules ∈ log'
      ∧ list.last log' = Some (unknownModuleError m).
Proof.
  unfold getStakingModules, fetchedLog.
  destruct (getStakingRouter chain) as [address|e]; [|discriminate].
  destruct (contract_getStakingModules chain) as [modules|e]; [|discriminate].
  intros H. apply promiseAllMap_transform_exited in H
    as (-> & m & Hin & Hid & Hact & ->).
  split; [reflexivity|]. exists address, modules, m.
  repeat split; auto.
  - rewrite !elem_of_app, !list_elem_of_singleton. auto.
  - apply last_snoc.
Qed.

(** An instance of X2: a module 7 listed after the curated module. *)
Lemma getStakingModules_exits_only_on_unknown_id_witness :
  ∃ m, m ∈ [sampleContractModule 1 norAddress; sampleContractModule 7 otherAddress]
       ∧ ContractModule.id m ≠ 1.
Proof.
  destruct (getStakingModules_exits_only_on_unknown_id
              (sampleChain [sampleContractModule 1 norAddress;
                            sampleContractModule 7 otherAddress])
              [] 1
              [fetchedLog [sampleContractModule 1 norAddress;
                           sampleContractModule 7 otherAddress];
               unknownModuleError (sampleContractModule 7 otherAddress)])
    as (_ & address & modules & m & _ & Hlist & Hin & Hid & _).
  - vm_compute. reflexivity.
  - exists m. simpl in Hlist. injection Hlist as <-. auto.
Defined.

(** X3.  When [getStakingModules] throws, the error is the rejection of the
    router read or of the list read (nothing is logged then), or it comes from
    one of the listed modules: the rejection of that module's activity read,
    or, for a module with id 1, the numeric fault that [toNumber] raises on one
    of its three big numbers that does not fit 53 bits.  The fetch itself logs
    no error, only the count of fetched modules. *)
Theorem getStakingModules_throws_a_listed_failure chain log e log' :
  getStakingModules chain log = (Thrown e, log') →
  (getStakingRouter chain = Rejects e ∧ log' = log)
  ∨ (contract_getStakingModules chain = Rejects e ∧ log' = log)
  ∨ ∃ modules m,
      contract_getStakingModules chain = Resolves modules
      ∧ m ∈ modules
      ∧ throwsOn chain m e
      ∧ log' = log ++ [fetchedLog modules].
Proof.
  unfold getStakingModules, fetchedLog.
  destruct (getStakingRouter chain) as [address|e0].
  2:{ intros H; inversion H; subst. left. auto. }
  destruct (contract_getStakingModules chain) as [modules|e0].
  2:{ intros H; inversion H; subst. right; left. auto. }
  intros H. apply promiseAllMap_transform_thrown in H as (-> & m & Hin & Hm).
  right; right. exists modules, m. auto.
Qed.

(** An instance of X3: the last deposit block of the module exceeds 53 bits. *)
Lemma getStakingModules_throws_a_listed_failure_witness :
  let big := {| ContractModule.id := 1;
                ContractModule.stakingModuleAddress := norAddress;
                ContractModule.stakingModuleFee := 500;
                ContractModule.treasuryFee := 500;
                ContractModule.targetShare := 10000;
                ContractModule.status := 0;
                ContractModule.name := "curated-onchain-v1";
                ContractModule.lastDepositAt := 1679851235;
                ContractModule.lastDepositBlock := 2 ^ 53;
                ContractModule.exitedValidatorsCount := 0 |} in
  let fault := NumericFault "overflow" "toNumber" "9007199254740992" in
  (getStakingModules (sampleChain [big]) []).1 = Thrown fault
  ∧ ∃ m, m ∈ [big] ∧ throwsOn (sampleChain [big]) m fault.
Proof.
  intros big fault. split; [vm_compute; reflexivity|].
  destruct (getStakingModules_throws_a_listed_failure (sampleChain [big]) []
              fault (getStakingModules (sampleChain [big]) []).2)
    as [[Hr _] | [[Hr _] | (modules & m & Hlist & Hin & Hm & _)]].
  - vm_compute. reflexivity.
  - discriminate Hr.
  - discriminate Hr.
  - exists m. simpl in Hlist. injection Hlist as <-. auto.
Defined.

(** ** The unknown module *)

(** C7, as the code has it.  The module is classified by its id, and the check
    comes after the activity read of the module.  With the router address and
    the module list read:
    - a listed module whose id is not 1 and whose activity read is answered
      makes the fetch log the error naming an unknown module and end the
      process with code 1;
    - when every listed module has id 1 or a failed activity read, the process
      is not ended; if a module with another id is listed then, the fetch
      throws the failure of a listed module and nothing but the count of
      fetched modules is logged;
    - a list is never returned while a module with another id is listed;
    - every module of a returned list has id 1 and the curated type, one per
      fetched module;
    - when every listed module has id 1, an answered activity read and big
      numbers that fit 53 bits, the list is returned, each entity carrying
      the fetched fields and the curated type. *)
Theorem getStakingModules_fails_fast chain address modules log :
  getStakingRouter chain = Resolves address →
  contract_getStakingModules chain = Resolves modules →
  (∀ m b, m ∈ modules → ContractModule.id m ≠ 1 →
          contract_getStakingModuleIsActive chain (ContractModule.id m) = Resolves b →
          ∃ m' log', getStakingModules chain log = (Exited 1, log')
                     ∧ m' ∈ modules ∧ ContractModule.id m' ≠ 1
                     ∧ list.last log' = Some (unknownModuleError m'))
  ∧ (Forall (passesCheck chain) modules →
     (∀ c log', getStakingModules chain log ≠ (Exited c, log'))
     ∧ ∀ m, m ∈ modules → ContractModule.id m ≠ 1 →
            ∃ e m', getStakingModules chain log = (Thrown e, log ++ [fetchedLog modules])
                    ∧ m' ∈ modules ∧ throwsOn chain m' e)
  ∧ (∀ m, m ∈ modules → ContractModule.id m ≠ 1 →
          ∀ ms log', getStakingModules chain log ≠ (Returned ms, log'))
  ∧ (∀ ms log', getStakingModules chain log = (Returned ms, log') →
                Forall (λ m, ContractModule.id m = 1) modules
                ∧ Forall (λ sm, StakingModule.id sm = 1
                                ∧ StakingModule.type sm = CURATED_ONCHAIN_V1_TYPE) ms
                ∧ length ms = length modules)
  ∧ (Forall (transformable chain) modules →
     ∃ ms, getStakingModules chain log = (Returned ms, log ++ [fetchedLog modules])
           ∧ Forall2 carries modules ms).
Proof.
  intros Hrouter Hmods. unfold getStakingModules, fetchedLog. rewrite Hrouter, Hmods.
  split; [|split; [|split; [|split]]].
  - intros m b Hin Hid Hact. eapply promiseAllMap_transform_exits; eauto.
  - intros Hall. split; [by apply promiseAllMap_transform_passes|].
    intros m Hin Hid.
    destruct (promiseAllMap (transformModule chain) modules
                (log ++ [LogLog ("Fetched " +:+ pretty (Z.of_nat (length modules)) +:+ " modules")]))
      as [[ms|e|c] log'] eqn:Hres.
    + apply promiseAllMap_transform_returned in Hres as (_ & Hids & _).
      rewrite list.Forall_forall in Hids. destruct (Hid (Hids m Hin)).
    + apply promiseAllMap_transform_thrown in Hres as (-> & m' & Hin' & Hm').
      exists e, m'. auto.
    + destruct (promiseAllMap_transform_passes _ _ _ Hall _ _ Hres).
  - intros m Hin Hid ms log' H.
    apply promiseAllMap_transform_returned in H as (_ & Hall & _).
    rewrite list.Forall_forall in Hall. exact (Hid (Hall m Hin)).
  - intros ms log' H. apply promiseAllMap_transform_returned in H. tauto.
  - intros Hall.
    assert (Hms : ∃ ms, Forall2 carries modules ms).
    { clear Hmods Hall. induction modules as [|x rest [ys IH]].
      - exists []. constructor.
      - exists ({| StakingModule.id := ContractModule.id x;
                   StakingModule.stakingModuleAddress := ContractModule.stakingModuleAddress x;
                   StakingModule.stakingModuleFee := ContractModule.stakingModuleFee x;
                   StakingModule.treasuryFee := ContractModule.treasuryFee x;
                   StakingModule.targetShare := ContractModule.targetShare x;
                   StakingModule.status := ContractModule.status x;
                   StakingModule.name := ContractModule.name x;
                   StakingModule.type := CURATED_ONCHAIN_V1_TYPE;
                   StakingModule.lastDepositAt := ContractModule.lastDepositAt x;
                   StakingModule.lastDepositBlock := ContractModule.lastDepositBlock x;
                   StakingModule.exitedValidatorsCount :=
                     ContractModule.exitedValidatorsCount x |} :: ys).
        constructor; [|exact IH]. unfold carries. simpl. repeat split. }
    destruct Hms as [ms Hms]. exists ms. split; [|exact Hms].
    apply promiseAllMap_transform_returned_iff. auto.
Qed.

(** An instance of the first part of C7: a module with id 2 beside the
    curated one ends the process. *)
Lemma getStakingModules_fails_fast_witness :
  ∃ m log',
    getStakingModules
      (sampleChain [sampleContractModule 1 norAddress; sampleContractModule 2 otherAddress]) []
    = (Exited 1, log')
    ∧ ContractModule.id m ≠ 1
    ∧ list.last log' = Some (unknownModuleError m).
Proof.
  destruct (getStakingModules_fails_fast
              (sampleChain [sampleContractModule 1 norAddress; sampleContractModule 2 otherAddress])
              "0xa3Dbd317E53D363176359E10948BA0b1c0A4c820"
              [sampleContractModule 1 norAddress; sampleContractModule 2 otherAddress]
              [] eq_refl eq_refl) as [Hexit _].
  destruct (Hexit (sampleContractModule 2 otherAddress) true) as (m & log' & H1 & _ & H2 & H3).
  - apply list_elem_of_further, list_elem_of_here.
  - simpl. lia.
  - reflexivity.
  - exists m, log'. auto.
Defined.

(** Against C7 as stated: a module with id 2 is listed, its activity read
    fails, and the fetch throws that failure; the process is not ended and
    nothing names an unknown module. *)
Lemma unknown_module_with_failed_read_is_not_fatal :
  ¬ (sampleContractModule 2 otherAddress ∈ [sampleContractModule 2 otherAddress] →
     ContractModule.id (sampleContractModule 2 otherAddress) ≠ 1 →
     ∃ c log',
       getStakingModules (unansweredChain [sampleContractModule 2 otherAddress]) []
       = (Exited c, log')).
Proof.
  intros H.
  destruct H as (c & log' & H).
  - apply list_elem_of_here.
  - simpl. lia.
  - vm_compute in H. discriminate H.
Qed.

(** An instance of X1: one curated module is fetched and returned. *)
Lemma getStakingModules_returns_iff_witness :
  ∃ address modules,
    getStakingRouter (sampleChain [sampleContractModule 1 norAddress]) = Resolves address
    ∧ contract_getStakingModules (sampleChain [sampleContractModule 1 norAddress])
      = Resolves modules
    ∧ Forall2 carries modules [sampleModule 1 norAddress].
Proof.
  destruct (proj1 (getStakingModules_returns_iff
                     (sampleChain [sampleContractModule 1 norAddress]) []
                     [sampleModule 1 norAddress]
                     [fetchedLog [sampleContractModule 1 norAddress]]))
    as (address & modules & H1 & H2 & _ & H4 & _).
  - vm_compute. reflexivity.
  - exists address, modules. auto.
Defined.

(** ** KeysUpdateService: the values of the operator gauge *)

Lemma foldl_setOperatorMetric_other ops :
  ∀ (g : gmap OperatorLabels Z) (index : Z) (used : string),
    (∀ op, op ∈ ops → RegistryOperator.index op ≠ index) →
    foldl setOperatorMetric g ops !! (index, 1, used) = g !! (index, 1, used).
Proof.
  induction ops as [|op ops IH]; intros g index used Hne; simpl; [reflexivity|].
  rewrite IH by (intros o Ho; apply Hne; by apply list_elem_of_further).
  unfold setOperatorMetric, gaugeSet.
  assert (Hop : RegistryOperator.index op ≠ index) by (apply Hne, list_elem_of_here).
  rewrite !lookup_insert_ne by congruence. reflexivity.
Qed.

(** X4.  After [setCuratedOperatorsMetric], the used entry of an operator
    holds its [usedSigningKeys] and the unused entry holds
    [totalSigningKeys - usedSigningKeys], so the two add up to
    [totalSigningKeys]; when several operators of the list share an index, the
    last of them in list order is the one whose counts are exported. *)
Theorem setCuratedOperatorsMetric_values
    (pre post : list RegistryOperator.t) (op : RegistryOperator.t)
    (previous : gmap OperatorLabels Z) :
  (∀ later, later ∈ post → RegistryOperator.index later ≠ RegistryOperator.index op) →
  let g := setCuratedOperatorsMetric (pre ++ op :: post) previous in
  g !! (RegistryOperator.index op, 1, "true") = Some (RegistryOperator.usedSigningKeys op)
  ∧ g !! (RegistryOperator.index op, 1, "false")
    = Some (RegistryOperator.totalSigningKeys op - RegistryOperator.usedSigningKeys op)
  ∧ ∃ used unused,
      g !! (RegistryOperator.index op, 1, "true") = Some used
      ∧ g !! (RegistryOperator.index op, 1, "false") = Some unused
      ∧ used + unused = RegistryOperator.totalSigningKeys op.
Proof.
  intros Hlast g.
  assert (Hvals :
            g !! (RegistryOperator.index op, 1, "true")
            = Some (RegistryOperator.usedSigningKeys op)
            ∧ g !! (RegistryOperator.index op, 1, "false")
              = Some (RegistryOperator.totalSigningKeys op
                      - RegistryOperator.usedSigningKeys op)).
  { unfold g, setCuratedOperatorsMetric. rewrite foldl_app. simpl.
    rewrite !foldl_setOperatorMetric_other by exact Hlast.
    unfold setOperatorMetric at 1 3. unfold gaugeSet. split.
    - rewrite lookup_insert_ne by (intros H; inversion H).
      apply lookup_insert_eq.
    - apply lookup_insert_eq. }
  destruct Hvals as [Ht Hf]. split; [exact Ht|]. split; [exact Hf|].
  eexists _, _. split; [exact Ht|]. split; [exact Hf|]. lia.
Qed.

(** An instance of X4: two operators with index 0; the later one counts. *)
Lemma setCuratedOperatorsMetric_values_witness :
  setCuratedOperatorsMetric
    ([sampleOperator 0 7 10] ++ sampleOperator 0 8 12 :: [sampleOperator 1 2 4]) ∅
    !! (0, 1, "false") = Some 4.
Proof.
  destruct (setCuratedOperatorsMetric_values [sampleOperator 0 7 10] [sampleOperator 1 2 4]
              (sampleOperator 0 8 12) ∅) as (_ & Hf & _).
  - intros later Hl. apply list_elem_of_singleton in Hl as ->. simpl. lia.
  - exact Hf.
Defined.

Lemma foldl_setOperatorMetric_size ops :
  ∀ g : gmap OperatorLabels Z,
    NoDup (RegistryOperator.index <$> ops) →
    (∀ op used, op ∈ ops → g !! (RegistryOperator.index op, 1, used) = None) →
    size (foldl setOperatorMetric g ops) = (size g + 2 * length ops)%nat.
Proof.
  induction ops as [|op ops IH]; intros g Hnd Hfree; simpl; [lia|].
  rewrite fmap_cons in Hnd. apply list.NoDup_cons in Hnd as [Hnotin Hnd].
  rewrite IH; [|exact Hnd|].
  - unfold setOperatorMetric, gaugeSet.
    rewrite map_size_insert_None.
    + rewrite map_size_insert_None by (apply Hfree, list_elem_of_here). lia.
    + rewrite lookup_insert_ne by (intros H; inversion H).
      apply Hfree, list_elem_of_here.
  - intros o used Ho. unfold setOperatorMetric, gaugeSet.
    assert (Hne : RegistryOperator.index op ≠ RegistryOperator.index o).
    { intros Heq. apply Hnotin. rewrite Heq. apply list_elem_of_fmap. eauto. }
    rewrite !lookup_insert_ne by congruence.
    apply Hfree. by apply list_elem_of_further.
Qed.

(** X5.  When the operators have pairwise distinct indices, the gauge holds
    exactly two entries per operator after [setCuratedOperatorsMetric],
    however many entries it held before. *)
Theorem setCuratedOperatorsMetric_size
    (operators : list RegistryOperator.t) (previous : gmap OperatorLabels Z) :
  NoDup (RegistryOperator.index <$> operators) →
  size (setCuratedOperatorsMetric operators previous) = (2 * length operators)%nat.
Proof.
  intros Hnd. unfold setCuratedOperatorsMetric, gaugeReset.
  rewrite foldl_setOperatorMetric_size; [rewrite map_size_empty; lia | exact Hnd |].
  intros op used _. apply lookup_empty.
Qed.

(** An instance of X5: three operators replace a gauge of two entries. *)
Lemma setCuratedOperatorsMetric_size_witness :
  size (setCuratedOperatorsMetric
          [sampleOperator 0 7 10; sampleOperator 1 2 4; sampleOperator 5 0 3]
          (setCuratedOperatorsMetric [sampleOperator 9 1 1] ∅)) = 6%nat.
Proof.
  apply (setCuratedOperatorsMetric_size
           [sampleOperator 0 7 10; sampleOperator 1 2 4; sampleOperator 5 0 3]).
  simpl. compute_done.
Defined.

(** ** KeysUpdateService: what a cycle logs, exports and leaves behind *)

Lemma getStakingModules_returned_inv chain log ms log' :
  getStakingModules chain log = (Returned ms, log') →
  ∃ modules,
    contract_getStakingModules chain = Resolves modules
    ∧ length ms = length modules
    ∧ Forall (λ sm, StakingModule.id sm = 1) ms
    ∧ log' = log ++ [fetchedLog modules].
Proof.
  unfold getStakingModules, fetchedLog.
  destruct (getStakingRouter chain) as [address|e]; [|discriminate].
  destruct (contract_getStakingModules chain) as [modules|e]; [|discriminate].
  intros H. apply promiseAllMap_transform_returned in H as (-> & _ & Hall & Hlen).
  exists modules. repeat split; auto.
  eapply list.Forall_impl; [exact Hall|]. intros sm [Hid _]. exact Hid.
Qed.

(** Every callback of the key update logs its line, and none ends the
    process. *)
Lemma updateModuleKeys_all_started env entries :
  ∀ log,
    (promiseAllMap (updateModuleKeys env) entries log).2
    = log ++ replicate (length entries) startUpdatingLog
    ∧ ∀ c, (promiseAllMap (updateModuleKeys env) entries log).1 ≠ Exited c.
Proof.
  induction entries as [|entry rest IH]; intros log; simpl.
  - rewrite app_nil_r. split; [reflexivity | discriminate].
  - assert (Hcb : updateModuleKeys env entry log
                  = (match curatedUpdateKeys env entry.1 with
                     | Resolves _ => Returned ()
                     | Rejects e => Thrown e
                     end, log ++ [startUpdatingLog])).
    { unfold updateModuleKeys.
      rewrite bool_decide_eq_true_2 by (destruct (StakingModule.type entry.2); reflexivity).
      destruct (curatedUpdateKeys env entry.1); reflexivity. }
    rewrite Hcb.
    destruct (IH (log ++ [startUpdatingLog])) as [Hlog Hne].
    rewrite <- app_assoc in Hlog. simpl in Hlog.
    destruct (curatedUpdateKeys env entry.1) as [u|e];
      destruct (promiseAllMap (updateModuleKeys env) rest (log ++ [startUpdatingLog]))
        as [[us|e'|c] l2];
      simpl in *; (split; [exact Hlog|]); try discriminate;
      intros c' Hc; inversion Hc; subst; exact (Hne c' eq_refl).
Qed.

Lemma updateKeysJob_returned_full now env s s' :
  updateKeysJob now env s = (Returned (), s') →
  ∃ modules log1 operators meta,
    getStakingModules (chain env) (logs (process s)) = (Returned modules, log1)
    ∧ getOperatorsWithMeta env = Resolves (operators, meta)
    ∧ s' = checkKeysUpdateTimeout now
             (beforeRearm modules
                (log1 ++ replicate (length modules) startUpdatingLog) operators meta s).
Proof.
  unfold updateKeysJob. intros H.
  destruct (getBlockHash env) as [blockHash|e0]; [|discriminate].
  destruct (getStakingModules (chain env) (logs (process s))) as [[modules|e1|c1] log1] eqn:Hfetch;
    [|discriminate..].
  cbv zeta in H.
  cbn [stakingModules cache withCache withStakingModules logs process withProcess withLogs] in H.
  pose proof (updateModuleKeys_all_started env (imap pair modules) log1) as [Hlog _].
  rewrite length_imap in Hlog.
  destruct (promiseAllMap (updateModuleKeys env) (imap pair modules) log1)
    as [[units|e2|c2] log2]; [|discriminate..].
  simpl in Hlog. subst log2.
  match type of H with context [updateMetricsCache env ?c] =>
    destruct (updateMetricsCache_cases env c) as [(operators & meta & Hreply & Hupd)
                                                 | (e3 & _ & Hupd)];
      rewrite Hupd in H end; [|discriminate].
  inversion H; subst; clear H.
  exists modules, log1, operators, meta.
  split; [reflexivity|]. split; [exact Hreply|]. reflexivity.
Qed.

(** X6.  A cycle that completes logs, after what was logged before: the count
    of fetched modules, one line per cached module announcing its key update,
    and the line of the metrics update; nothing else. *)
Theorem completed_cycle_log now env s s' :
  updateKeysJob now env s = (Returned (), s') →
  let n := length (stakingModules (cache s')) in
  logs (process s')
  = logs (process s)
    ++ [LogLog ("Fetched " +:+ pretty (Z.of_nat n) +:+ " modules")]
    ++ replicate n (LogLog "Start updating curated keys")
    ++ [LogLog "Curated Module metrics updated"].
Proof.
  intros H n. unfold n.
  destruct (updateKeysJob_returned_full _ _ _ _ H)
    as (modules & log1 & operators & meta & Hfetch & _ & ->).
  destruct (checkKeysUpdateTimeout_frame now
              (beforeRearm modules (log1 ++ replicate (length modules) startUpdatingLog)
                           operators meta s)) as (-> & _ & -> & _).
  apply getStakingModules_returned_inv in Hfetch as (fetched & _ & Hlen & _ & ->).
  unfold beforeRearm, fetchedLog, startUpdatingLog. simpl.
  rewrite Hlen, <- !app_assoc. reflexivity.
Qed.

(** An instance of X6: the first cycle of a fresh service. *)
Lemma completed_cycle_log_witness :
  logs (process (updateKeysJob 1700000001000 (sampleCycle [] None) newKeysUpdateService).2)
  = [LogLog "Fetched 1 modules"; LogLog "Start updating curated keys";
     LogLog "Curated Module metrics updated"].
Proof.
  apply (completed_cycle_log 1700000001000 (sampleCycle [] None) newKeysUpdateService).
  vm_compute. reflexivity.
Defined.

(** X7.  A cycle that completes exports the cache it leaves: the operator
    gauge is rebuilt from the cached operators; the last-update, block-number
    and nonce gauges take the cached value when it is set and not zero, and
    keep their previous value when it is zero or was never set (a key-operation
    index of 0 is never exported). *)
Theorem completed_cycle_exports_cache now env s s' :
  updateKeysJob now env s = (Returned (), s') →
  let old := prometheusService s in
  let new := prometheusService s' in
  registryNumberOfKeysBySRModuleAndOperator new
  = setCuratedOperatorsMetric (curatedOperators (cache s'))
                              (registryNumberOfKeysBySRModuleAndOperator old)
  ∧ (∀ t, lastTimestampSec (cache s') = Some t → t ≠ 0 → registryLastUpdate new = Some t)
  ∧ (∀ b, lastBlockNumber (cache s') = Some b → b ≠ 0 → registryBlockNumber new = Some b)
  ∧ (∀ k, curatedNonce (cache s') = Some k → k ≠ 0 →
          registryNonce new = <[1 := k]> (registryNonce old))
  ∧ (lastTimestampSec (cache s') = None ∨ lastTimestampSec (cache s') = Some 0 →
     registryLastUpdate new = registryLastUpdate old)
  ∧ (lastBlockNumber (cache s') = None ∨ lastBlockNumber (cache s') = Some 0 →
     registryBlockNumber new = registryBlockNumber old)
  ∧ (curatedNonce (cache s') = None ∨ curatedNonce (cache s') = Some 0 →
     registryNonce new = registryNonce old).
Proof.
  intros H old new. unfold old, new.
  destruct (updateKeysJob_returned_full _ _ _ _ H)
    as (modules & log1 & operators & meta & _ & _ & ->).
  destruct (checkKeysUpdateTimeout_frame now
              (beforeRearm modules (log1 ++ replicate (length modules) startUpdatingLog)
                           operators meta s)) as (-> & -> & _).
  unfold beforeRearm, setMetrics, setCuratedMetrics. simpl.
  split; [reflexivity|].
  repeat split.
  - intros t -> Hnz. unfold truthy. by rewrite bool_decide_eq_true_2.
  - intros b -> Hnz. unfold truthy. by rewrite bool_decide_eq_true_2.
  - intros k -> Hnz. unfold truthy. by rewrite bool_decide_eq_true_2.
  - intros [-> | ->]; reflexivity.
  - intros [-> | ->]; reflexivity.
  - intros [-> | ->]; reflexivity.
Qed.

(** An instance of X7: the registry has never been operated on (index 0). *)
Lemma completed_cycle_exports_cache_witness :
  let s' := (updateKeysJob 1700000001000
               (sampleCycle [sampleOperator 0 7 10] (Some (sampleMeta 100 0 1700000000)))
               newKeysUpdateService).2 in
  registryBlockNumber (prometheusService s') = Some 100
  ∧ registryNonce (prometheusService s') = ∅.
Proof.
  intros s'.
  destruct (completed_cycle_exports_cache 1700000001000
              (sampleCycle [sampleOperator 0 7 10] (Some (sampleMeta 100 0 1700000000)))
              newKeysUpdateService s')
    as (_ & _ & Hblock & _ & _ & _ & Hnonce).
  - vm_compute. reflexivity.
  - split.
    + apply Hblock; [reflexivity | lia].
    + apply Hnonce. right. reflexivity.
Defined.

(** ** KeysUpdateService: cycles that do not complete *)

Lemma updateModuleKeys_some_rejection env entries :
  ∀ log,
    (∃ entry e, entry ∈ entries ∧ curatedUpdateKeys env entry.1 = Rejects e) →
    ∃ entry e, entry ∈ entries
               ∧ curatedUpdateKeys env entry.1 = Rejects e
               ∧ (promiseAllMap (updateModuleKeys env) entries log).1 = Thrown e.
Proof.
  induction entries as [|x rest IH]; intros log (entry & e & Hin & He).
  { inversion Hin. }
  simpl.
  assert (Hcb : updateModuleKeys env x log
                = (match curatedUpdateKeys env x.1 with
                   | Resolves _ => Returned ()
                   | Rejects e => Thrown e
                   end, log ++ [startUpdatingLog])).
  { unfold updateModuleKeys.
    rewrite bool_decide_eq_true_2 by (destruct (StakingModule.type x.2); reflexivity).
    destruct (curatedUpdateKeys env x.1); reflexivity. }
  rewrite Hcb.
  destruct (updateModuleKeys_all_started env rest (log ++ [startUpdatingLog])) as [_ Hne].
  destruct (curatedUpdateKeys env x.1) as [u|e0] eqn:Hx.
  - assert (Hin' : entry ∈ rest).
    { apply elem_of_cons in Hin as [-> | Hin]; [congruence | exact Hin]. }
    destruct (IH (log ++ [startUpdatingLog])) as (entry' & e' & Hin2 & He' & Hthrow);
      [eauto|].
    exists entry', e'. split; [by apply list_elem_of_further|]. split; [exact He'|].
    destruct (promiseAllMap (updateModuleKeys env) rest (log ++ [startUpdatingLog]))
      as [[us|e1|c] l2]; simpl in *; congruence.
  - exists x, e0. split; [apply list_elem_of_here|]. split; [exact Hx|].
    destruct (promiseAllMap (updateModuleKeys env) rest (log ++ [startUpdatingLog]))
      as [[us|e1|c] l2]; simpl in *; try reflexivity.
    exfalso. exact (Hne c eq_refl).
Qed.

(** X8.  When the module list has been fetched and the key update of some
    module of the list rejects, the job throws the rejection of a key update
    of the list; by then the fetched list is in the cache and the key update
    of every module of the list has been announced in the log. *)
Theorem failed_key_update_throws_a_rejection now env s blockHash modules log1 i e :
  getBlockHash env = Resolves blockHash →
  getStakingModules (chain env) (logs (process s)) = (Returned modules, log1) →
  (i < length modules)%nat →
  curatedUpdateKeys env i = Rejects e →
  ∃ j e',
    (j < length modules)%nat
    ∧ curatedUpdateKeys env j = Rejects e'
    ∧ (updateKeysJob now env s).1 = Thrown e'
    ∧ stakingModules (cache (updateKeysJob now env s).2) = modules
    ∧ logs (process (updateKeysJob now env s).2)
      = log1 ++ replicate (length modules) (LogLog "Start updating curated keys").
Proof.
  intros Hhash Hfetch Hi He.
  unfold updateKeysJob. rewrite Hhash, Hfetch. cbv zeta.
  cbn [stakingModules cache withCache withStakingModules logs process withProcess withLogs].
  destruct (lookup_lt_is_Some_2 modules i Hi) as [m Hm].
  destruct (updateModuleKeys_some_rejection env (imap pair modules) log1)
    as (entry & e' & Hin & He' & Hthrow).
  { exists (i, m), e. split; [by apply elem_of_lookup_imap_2 | exact He]. }
  apply list_elem_of_lookup in Hin as [j Hj].
  rewrite list_lookup_imap in Hj.
  destruct (modules !! j) as [mj|] eqn:Hmj; [|discriminate].
  injection Hj as <-. simpl in He'.
  exists j, e'. split; [by eapply lookup_lt_Some|]. split; [exact He'|].
  pose proof (updateModuleKeys_all_started env (imap pair modules) log1) as [Hlog _].
  rewrite length_imap in Hlog.
  destruct (promiseAllMap (updateModuleKeys env) (imap pair modules) log1)
    as [[us|e2|c] l2]; simpl in Hthrow, Hlog; try discriminate.
  injection Hthrow as ->. subst l2. simpl. auto.
Qed.

(** An instance of X8: the key update of the only module fails. *)
Lemma failed_key_update_throws_a_rejection_witness :
  ∃ e, (updateKeysJob 1700000001000 sampleCycleKeysFail newKeysUpdateService).1 = Thrown e
       ∧ stakingModules
           (cache (updateKeysJob 1700000001000 sampleCycleKeysFail newKeysUpdateService).2)
         = [sampleModule 1 norAddress].
Proof.
  destruct (failed_key_update_throws_a_rejection 1700000001000 sampleCycleKeysFail
              newKeysUpdateService "0xb0" [sampleModule 1 norAddress]
              [LogLog "Fetched 1 modules"] 0 (Error "could not detect network"))
    as (j & e & _ & _ & Hout & Hmods & _).
  - reflexivity.
  - vm_compute. reflexivity.
  - simpl. lia.
  - reflexivity.
  - exists e. split; [exact Hout | exact Hmods].
Defined.

Lemma runCycles_exited wrapJobCatches cycles s :
  alive s = false → runCycles wrapJobCatches cycles s = s.
Proof.
  intros Hdead. induction cycles as [|[now env] rest IH]; simpl; [reflexivity|].
  unfold cycleAt. rewrite Hdead. exact IH.
Qed.

(** X9.  A refresh cycle that fetches a module whose id is not 1 (its activity
    read being answered) ends the process with code 1 before anything is
    cached: the cache, the metrics, the pending timers and the handle are as
    before the cycle, the last thing logged is the error naming an unknown
    module, and no later cycle does anything. *)
Theorem unknown_module_stops_the_service
    wrapJobCatches now env s blockHash address modules m isActive :
  getBlockHash env = Resolves blockHash →
  getStakingRouter (chain env) = Resolves address →
  contract_getStakingModules (chain env) = Resolves modules →
  m ∈ modules →
  ContractModule.id m ≠ 1 →
  contract_getStakingModuleIsActive (chain env) (ContractModule.id m) = Resolves isActive →
  let s' := updateKeysCaught wrapJobCatches now env s in
  exitCode (process s') = Some 1
  ∧ cache s' = cache s
  ∧ prometheusService s' = prometheusService s
  ∧ timers (process s') = timers (process s)
  ∧ updateDeadlineTimer s' = updateDeadlineTimer s
  ∧ (∃ unknown, unknown ∈ modules ∧ ContractModule.id unknown ≠ 1
                ∧ list.last (logs (process s')) = Some (unknownModuleError unknown))
  ∧ ∀ cycles, runCycles wrapJobCatches cycles s' = s'.
Proof.
  intros Hhash Hrouter Hlist Hin Hid Hact s'.
  destruct (promiseAllMap_transform_exits (chain env) modules
              (logs (process s) ++ [fetchedLog modules]) m isActive Hin Hid Hact)
    as (unknown & log' & Hexit & Hin' & Hid' & Hlast).
  assert (Hjob : updateKeysJob now env s
                 = (Exited 1, processExit 1 (withProcess (withLogs log' (process s)) s))).
  { unfold updateKeysJob. rewrite Hhash.
    unfold getStakingModules. rewrite Hrouter, Hlist.
    unfold fetchedLog in Hexit. rewrite Hexit. reflexivity. }
  assert (Hs' : s' = processExit 1 (withProcess (withLogs log' (process s)) s)).
  { unfold s', updateKeysCaught, updateKeys, wrapJob. rewrite Hjob. reflexivity. }
  rewrite Hs'. simpl.
  repeat (split; [reflexivity|]).
  split; [exists unknown; auto|].
  intros cycles. apply runCycles_exited. reflexivity.
Qed.

(** An instance of X9: the router lists module 1 and a module 2. *)
Lemma unknown_module_stops_the_service_witness :
  let env := {| getBlockHash := Resolves "0xb0";
                chain := sampleChain [sampleContractModule 1 norAddress;
                                      sampleContractModule 2 otherAddress];
                curatedUpdateKeys := λ _, Resolves ();
                getOperatorsWithMeta := Resolves ([], None) |} in
  exitCode (process (updateKeysCaught true 1700000013000 env afterBlock100)) = Some 1
  ∧ cache (updateKeysCaught true 1700000013000 env afterBlock100) = cache afterBlock100.
Proof.
  intros env.
  destruct (unknown_module_stops_the_service true 1700000013000 env afterBlock100 "0xb0"
              "0xa3Dbd317E53D363176359E10948BA0b1c0A4c820"
              [sampleContractModule 1 norAddress; sampleContractModule 2 otherAddress]
              (sampleContractModule 2 otherAddress) true)
    as (Hexit & Hcache & _).
  - reflexivity.
  - reflexivity.
  - reflexivity.
  - apply list_elem_of_further, list_elem_of_here.
  - simpl. lia.
  - reflexivity.
  - split; [exact Hexit | exact Hcache].
Defined.

Lemma updateKeysJob_exited now env s c s1 :
  updateKeysJob now env s = (Exited c, s1) →
  cache s1 = cache s
  ∨ ∃ modules log1,
      getStakingModules (chain env) (logs (process s)) = (Returned modules, log1)
      ∧ cache s1 = withStakingModules modules (cache s).
Proof.
  unfold updateKeysJob. intros H.
  destruct (getBlockHash env) as [blockHash|e0]; [|discriminate].
  destruct (getStakingModules (chain env) (logs (process s))) as [[modules|e1|c1] log1] eqn:Hfetch;
    [| discriminate | inversion H; subst; left; reflexivity].
  cbv zeta in H.
  destruct (promiseAllMap _ _ _) as [[units|e2|c2] log2];
    [| discriminate | inversion H; subst; right; eauto].
  match type of H with context [updateMetricsCache env ?c] =>
    destruct (updateMetricsCache_cases env c) as [(operators & meta & _ & Hupd)
                                                 | (e3 & _ & Hupd)];
      rewrite Hupd in H end; discriminate.
Qed.

Lemma fetched_modules_curated chain log modules log1 :
  getStakingModules chain log = (Returned modules, log1) →
  Forall (λ m, StakingModule.id m = 1 ∧ StakingModule.type m = CURATED_ONCHAIN_V1_TYPE)
         modules.
Proof.
  unfold getStakingModules.
  destruct (getStakingRouter chain) as [address|e]; [|discriminate].
  destruct (contract_getStakingModules chain) as [fetched|e]; [|discriminate].
  intros H. apply promiseAllMap_transform_returned in H. tauto.
Qed.

Lemma updateKeysCaught_cachesCuratedOnly wrapJobCatches now env s :
  cachesCuratedOnly s → cachesCuratedOnly (updateKeysCaught wrapJobCatches now env s).
Proof.
  unfold cachesCuratedOnly. intros Hinv.
  destruct (updateKeysJob now env s) as [[[]|e|c] s1] eqn:Hjob.
  - rewrite (updateKeysCaught_returned _ _ _ _ _ Hjob).
    destruct (updateKeysJob_returned _ _ _ _ Hjob)
      as (modules & log1 & operators & meta & s4 & Hfetch & _ & -> & Hcache & _).
    destruct (checkKeysUpdateTimeout_frame now s4) as (-> & _).
    rewrite Hcache. simpl. exact (fetched_modules_curated _ _ _ _ Hfetch).
  - rewrite (updateKeysCaught_thrown _ _ _ _ _ _ Hjob).
    destruct (updateKeysJob_thrown _ _ _ _ _ Hjob)
      as (_ & _ & [[_ ->] | [(log1 & _ & Hc) | (modules & log1 & Hfetch & Hc)]]);
      unfold loggerError; simpl; try rewrite Hc; simpl; try exact Hinv.
    exact (fetched_modules_curated _ _ _ _ Hfetch).
  - assert (Hs : updateKeysCaught wrapJobCatches now env s = s1).
    { unfold updateKeysCaught, updateKeys, wrapJob. rewrite Hjob. reflexivity. }
    rewrite Hs.
    destruct (updateKeysJob_exited _ _ _ _ _ Hjob) as [-> | (modules & log1 & Hfetch & ->)];
      [exact Hinv|].
    simpl. exact (fetched_modules_curated _ _ _ _ Hfetch).
Qed.

Lemma cycleAt_cachesCuratedOnly wrapJobCatches now env s :
  cachesCuratedOnly s → cachesCuratedOnly (cycleAt wrapJobCatches now env s).
Proof.
  intros Hinv. unfold cycleAt.
  destruct (alive s); [|exact Hinv].
  assert (Hfire : cachesCuratedOnly (fireDue now s)).
  { unfold fireDue. destruct (existsb _ _); [|exact Hinv].
    unfold cachesCuratedOnly. destruct (deadlineCallback_frame s) as (-> & _). exact Hinv. }
  destruct (alive (fireDue now s)); [|exact Hfire].
  by apply updateKeysCaught_cachesCuratedOnly.
Qed.

(** X10.  From a fresh service on, whatever the chain and the storage reply
    and however the cycles end, every module in the cache has id 1 and the
    curated type: [getStakingModules()] never shows a module of another id. *)
Theorem cache_holds_curated_modules_only wrapJobCatches start firstEnd env cycles :
  cachesCuratedOnly
    (runCycles wrapJobCatches cycles
       (initialize wrapJobCatches start firstEnd env newKeysUpdateService)).
Proof.
  assert (Hrun : ∀ s, cachesCuratedOnly s →
                      cachesCuratedOnly (runCycles wrapJobCatches cycles s)).
  { induction cycles as [|[now env'] rest IH]; intros s Hinv; simpl; [exact Hinv|].
    apply IH. by apply cycleAt_cachesCuratedOnly. }
  apply Hrun. unfold initialize.
  assert (Hfirst : cachesCuratedOnly
                     (cycleAt wrapJobCatches firstEnd env
                        (checkKeysUpdateTimeout start newKeysUpdateService))).
  { apply cycleAt_cachesCuratedOnly. unfold cachesCuratedOnly.
    destruct (checkKeysUpdateTimeout_frame start newKeysUpdateService) as (-> & _).
    constructor. }
  destruct (alive _); [|exact Hfirst].
  exact Hfirst.
Qed.

Lemma checkKeysUpdateTimeout_first now s :
  timers (process s) = [] →
  timers (process (checkKeysUpdateTimeout now s)) = [newDeadline now s].
Proof.
  intros Htimers.
  destruct (updateDeadlineTimer s) as [handle|] eqn:Hhandle;
    [destruct (isUpdated now (cache s)) eqn:Hup|].
  - rewrite (checkKeysUpdateTimeout_cleared now s handle Hup Hhandle), Htimers. reflexivity.
  - rewrite checkKeysUpdateTimeout_kept by auto. rewrite Htimers. reflexivity.
  - rewrite checkKeysUpdateTimeout_kept by auto. rewrite Htimers. reflexivity.
Qed.

(** X11.  A first cycle that throws does not stop the start-up: when it ends
    before the deadline, [initialize] logs the error and then that it has
    finished, the process is alive, the deadline timer armed at the start is
    the only one pending (it was not re-armed), and the cached operators and
    meta fields are those of before. *)
Theorem initialize_finishes_after_failed_first_cycle
    wrapJobCatches start firstEnd env s e :
  alive s = true →
  timers (process s) = [] →
  jobOutcome env = Thrown e →
  firstEnd < start + UPDATE_KEYS_TIMEOUT_MS →
  let s' := initialize wrapJobCatches start firstEnd env s in
  alive s' = true
  ∧ timers (process s') = [newDeadline start s]
  ∧ (∃ logged, logs (process s')
               = logged ++ [LogError e; LogLog "Finished KeysUpdateService initialization"])
  ∧ curatedOperators (cache s') = curatedOperators (cache s)
  ∧ lastBlockNumber (cache s') = lastBlockNumber (cache s)
  ∧ lastTimestampSec (cache s') = lastTimestampSec (cache s)
  ∧ curatedNonce (cache s') = curatedNonce (cache s).
Proof.
  intros Halive Htimers Hout Hbefore s'.
  pose proof (checkKeysUpdateTimeout_first start s Htimers) as Harmed.
  destruct (checkKeysUpdateTimeout_frame start s) as (Hc & _ & _ & Hexit & _).
  set (s1 := checkKeysUpdateTimeout start s) in *.
  assert (Halive1 : alive s1 = true).
  { unfold alive in *. rewrite Hexit. exact Halive. }
  destruct (updateKeysJob firstEnd env s1) as [out s2] eqn:Hjob.
  assert (Hthrown : out = Thrown e).
  { unfold jobOutcome in Hout.
    rewrite <- (updateKeysJob_outcome_indep firstEnd 0 env s1 newKeysUpdateService) in Hout.
    rewrite Hjob in Hout. exact Hout. }
  subst out.
  assert (Hcycle : cycleAt wrapJobCatches firstEnd env s1 = loggerError e s2).
  { unfold cycleAt. rewrite Halive1.
    rewrite fireDue_not_due.
    - rewrite Halive1. apply (updateKeysCaught_thrown _ _ _ _ _ _ Hjob).
    - intros t Ht. rewrite Harmed in Ht. apply list_elem_of_singleton in Ht as ->.
      simpl. lia. }
  destruct (updateKeysJob_thrown _ _ _ _ _ Hjob) as ((Ht2 & _ & He2 & _) & _ & Hcases).
  assert (Halive2 : alive (loggerError e s2) = true).
  { unfold alive in *. unfold loggerError. simpl. rewrite He2. exact Halive1. }
  unfold s', initialize. fold s1. rewrite Hcycle, Halive2.
  split; [unfold alive in *; simpl; rewrite He2; exact Halive1|].
  split; [simpl; rewrite Ht2; exact Harmed|].
  split.
  { exists (logs (process s2)). simpl. rewrite <- app_assoc. reflexivity. }
  simpl.
  destruct Hcases as [[_ ->] | [(log1 & _ & ->) | (modules & log1 & _ & ->)]];
    simpl; rewrite ?Hc; repeat split.
Qed.

(** An instance of X11: the key update of the first cycle fails. *)
Lemma initialize_finishes_after_failed_first_cycle_witness :
  let s' := initialize true 1700000000000 1700000001000 sampleCycleKeysFail
                       newKeysUpdateService in
  alive s' = true
  ∧ timers (process s') = [{| timerId := 0; fireAt := 1700001800000 |}].
Proof.
  destruct (initialize_finishes_after_failed_first_cycle true 1700000000000 1700000001000
              sampleCycleKeysFail newKeysUpdateService (Error "could not detect network"))
    as (Halive & Htimers & _).
  - reflexivity.
  - reflexivity.
  - vm_compute. reflexivity.
  - unfold UPDATE_KEYS_TIMEOUT_MS. lia.
  - split; [exact Halive | exact Htimers].
Defined.

(** ** KeysUpdateService: which module a lookup returns *)

Section LookupOrder.
Variable StringToNumber : string → option Z.

Lemma find_first_match {A : Type} (f : A → bool) (l : list A) (x : A) :
  List.find f l = Some x →
  ∃ pre post, l = pre ++ x :: post ∧ f x = true ∧ ∀ y, y ∈ pre → f y = false.
Proof.
  induction l as [|a l IH]; simpl; [discriminate|].
  destruct (f a) eqn:Hfa.
  - intros H. injection H as ->. exists [], l. repeat split; [exact Hfa|].
    intros y Hy. inversion Hy.
  - intros H. destruct (IH H) as (pre & post & -> & Hx & Hpre).
    exists (a :: pre), post. repeat split; [exact Hx|].
    intros y Hy. apply elem_of_cons in Hy as [-> | Hy]; [exact Hfa | by apply Hpre].
Qed.

(** X12.  When several cached modules match an identifier (by address or by
    id), [getStakingModule] returns the one that comes first in the cached
    list: the module returned matches and no module before it does. *)
Theorem getStakingModule_returns_first_match c moduleId m :
  getStakingModule StringToNumber c moduleId = Some m →
  ∃ pre post,
    stakingModules c = pre ++ m :: post
    ∧ matchesModule StringToNumber moduleId m = true
    ∧ ∀ earlier, earlier ∈ pre →
        looseEqString StringToNumber (StakingModule.stakingModuleAddress earlier) moduleId
        = false
        ∧ looseEqNumber StringToNumber (StakingModule.id earlier) moduleId = false.
Proof.
  unfold getStakingModule. intros H.
  destruct (find_first_match _ _ _ H) as (pre & post & Hl & Hm & Hpre).
  exists pre, post. split; [exact Hl|]. split; [exact Hm|].
  intros earlier Hin. specialize (Hpre earlier Hin).
  unfold matchesModule in Hpre. by apply orb_false_iff in Hpre.
Qed.
End LookupOrder.

(** An instance of X12: two cached modules have id 1. *)
Lemma getStakingModule_returns_first_match_witness :
  let c := withStakingModules [sampleModule 1 norAddress; sampleModule 1 otherAddress]
                              (cache newKeysUpdateService) in
  ∃ pre post,
    stakingModules c = pre ++ sampleModule 1 norAddress :: post
    ∧ ∀ earlier, earlier ∈ pre →
        looseEqNumber decimalStringToNumber (StakingModule.id earlier) (ModuleIdString "1")
        = false.
Proof.
  intros c.
  destruct (getStakingModule_returns_first_match decimalStringToNumber c (ModuleIdString "1")
              (sampleModule 1 norAddress)) as (pre & post & Hl & _ & Hpre).
  - reflexivity.
  - exists pre, post. split; [exact Hl|]. intros earlier Hin. by apply Hpre.
Defined.

(** ** KeysUpdateService: the freshness test of the watchdog *)

(** X13.  With a cached timestamp of [last] seconds, [checkKeysUpdateTimeout]
    takes the keys as updated exactly when [last] is not zero and the clock, in
    milliseconds, is below [1000 * last + 1800000]: a timestamp exactly thirty
    minutes old is not fresh, one in the future is; and what is fresh at some
    instant was fresh at every earlier one. *)
Theorem isUpdated_threshold now c last :
  lastTimestampSec c = Some last →
  (isUpdated now c = true ↔ last ≠ 0 ∧ now < 1000 * last + 30 * 60 * 1000)
  ∧ isUpdated (1000 * last + 30 * 60 * 1000) c = false
  ∧ (∀ earlier, earlier ≤ now → isUpdated now c = true → isUpdated earlier c = true).
Proof.
  intros Hlast.
  assert (Hiff : ∀ t, isUpdated t c = true ↔ last ≠ 0 ∧ t < 1000 * last + 30 * 60 * 1000).
  { intros t. rewrite isUpdated_spec. unfold UPDATE_KEYS_TIMEOUT_MS. split.
    - intros (l & Hl & Hnz & Hlt). rewrite Hlast in Hl. injection Hl as <-.
      split; [exact Hnz | lia].
    - intros [Hnz Hlt]. exists last. repeat split; [exact Hlast | exact Hnz | lia]. }
  split; [apply Hiff|]. split.
  - apply not_true_is_false. intros H. apply Hiff in H as [_ H]. lia.
  - intros earlier Hle H. apply Hiff. apply Hiff in H as [Hnz H]. split; [exact Hnz | lia].
Qed.

(** An instance of X13: the cache left by a cycle that read timestamp
    1700000000. *)
Lemma isUpdated_threshold_witness :
  isUpdated 1700001800000 (cache afterBlock100) = false
  ∧ isUpdated 1700001799999 (cache afterBlock100) = true.
Proof.
  destruct (isUpdated_threshold 1700001799999 (cache afterBlock100) 1700000000)
    as (Hiff & Hedge & _).
  - vm_compute. reflexivity.
  - split; [exact Hedge|]. apply Hiff. lia.
Defined.

(** ** RegistryService: the queries by several keys and by filters *)

Lemma filter_bool_decide {A : Type} (P : A → Prop) `{∀ x, Decision (P x)} (l : list A) :
  List.filter (λ x, bool_decide (P x)) l = filter P l.
Proof.
  induction l as [|x l IH]; simpl; [reflexivity|].
  rewrite filter_cons. case_bool_decide; rewrite decide_bool_decide;
    [rewrite bool_decide_eq_true_2 by assumption | rewrite bool_decide_eq_false_2 by assumption];
    by rewrite IH.
Qed.

Lemma getKeysWithMetaByPubkeys_keys pubkeys st reqs k :
  k ∈ (getKeysWithMetaByPubkeys pubkeys st reqs).1.1
  ↔ k ∈ storedKeys st ∧ RegistryKey.key k ∈ pubkeys.
Proof.
  unfold getKeysWithMetaByPubkeys, keysWithMeta, getKeysByPubkeys, keyStorageFind,
    metaStorageRead. simpl.
  rewrite list_elem_of_In, List.filter_In, <- list_elem_of_In.
  unfold filterMatches. by rewrite bool_decide_eq_true.
Qed.

(** X14.  [getKeyWithMetaByPubkey] is the query by several keys asked for the
    single lower-cased key: both return the same keys and the same meta. *)
Theorem getKeyWithMetaByPubkey_is_query_of_lowercased pubkey st evs reqs :
  (getKeyWithMetaByPubkey pubkey st evs).1
  = (getKeysWithMetaByPubkeys [toLocaleLowerCase pubkey] st reqs).1.
Proof.
  rewrite getKeyWithMetaByPubkey_unfold.
  unfold getKeysWithMetaByPubkeys, keysWithMeta, getKeysByPubkeys, keyStorageFind,
    metaStorageRead. simpl. f_equal.
  rewrite <- (filter_bool_decide (λ k, RegistryKey.key k = toLocaleLowerCase pubkey)).
  apply List.filter_ext. intros k. unfold filterMatches.
  apply bool_decide_ext. rewrite list_elem_of_singleton. reflexivity.
Qed.

(** X15.  [getKeysWithMetaByPubkeys] does not lower-case what it is given: it
    returns the stored keys whose [key] is literally in the list.  So, the
    stored keys being lower-case, a public key written with an upper-case
    letter finds nothing through it, although [getKeyWithMetaByPubkey] finds
    the key under its lower-cased spelling; the meta is returned all the
    same. *)
Theorem getKeysWithMetaByPubkeys_is_case_sensitive pubkey st evs reqs stored :
  (∀ k, k ∈ storedKeys st → toLocaleLowerCase (RegistryKey.key k) = RegistryKey.key k) →
  toLocaleLowerCase pubkey ≠ pubkey →
  stored ∈ storedKeys st →
  RegistryKey.key stored = toLocaleLowerCase pubkey →
  (getKeysWithMetaByPubkeys [pubkey] st reqs).1 = ([], storedMeta st)
  ∧ stored ∈ (getKeyWithMetaByPubkey pubkey st evs).1.1.
Proof.
  intros Hlower Hupper Hin Hkey. split.
  - assert (Hnone : (getKeysWithMetaByPubkeys [pubkey] st reqs).1.1 = []).
    { apply elem_of_nil_inv. intros k Hk.
      apply getKeysWithMetaByPubkeys_keys in Hk as [Hk Heq].
      apply list_elem_of_singleton in Heq.
      specialize (Hlower k Hk). rewrite Heq in Hlower. contradiction. }
    unfold getKeysWithMetaByPubkeys, keysWithMeta, getKeysByPubkeys, keyStorageFind,
      metaStorageRead in *. simpl in *. by rewrite Hnone.
  - rewrite getKeyWithMetaByPubkey_unfold. simpl.
    apply list_elem_of_filter. auto.
Qed.

(** An instance of X15: the key of the storage, asked in upper case. *)
Lemma getKeysWithMetaByPubkeys_is_case_sensitive_witness :
  let stored := {| RegistryKey.index := 0; RegistryKey.operatorIndex := 3;
                   RegistryKey.key := "0xa1f4"; RegistryKey.depositSignature := "0x8b";
                   RegistryKey.used := true |} in
  let st := {| storedKeys := [stored]; storedMeta := Some (sampleMeta 100 5 1700000000) |} in
  (getKeysWithMetaByPubkeys ["0xA1F4"] st []).1 = ([], Some (sampleMeta 100 5 1700000000))
  ∧ stored ∈ (getKeyWithMetaByPubkey "0xA1F4" st []).1.1.
Proof.
  intros stored st.
  apply (getKeysWithMetaByPubkeys_is_case_sensitive "0xA1F4" st [] [] stored).
  - intros k Hk. apply list_elem_of_singleton in Hk as ->. reflexivity.
  - vm_compute. discriminate.
  - apply list_elem_of_here.
  - reflexivity.
Defined.

(** ** RegistryService: the update job *)

Lemma registryUpdateJob_cases env s :
  (∃ e, registryUpdateJob env s = (Thrown e, s)
        ∧ (keyRegistryUpdate env = Rejects e
           ∨ (∃ u, keyRegistryUpdate env = Resolves u) ∧ metaStorageGetReply env = Rejects e))
  ∨ (∃ u meta,
        keyRegistryUpdate env = Resolves u
        ∧ metaStorageGetReply env = Resolves meta
        ∧ registryUpdateJob env s
          = (Returned (),
             {| lastTimestamp := match meta with
                                 | Some m => RegistryMeta.timestamp m
                                 | None => lastTimestamp s
                                 end;
                registryLastUpdateGauge :=
                  Some (match meta with
                        | Some m => RegistryMeta.timestamp m
                        | None => lastTimestamp s
                        end);
                registryLogs := registryLogs s ++ [LogLog "Registry metrics updated"] |})).
Proof.
  unfold registryUpdateJob, updateTimestamp, updateMetrics.
  destruct (keyRegistryUpdate env) as [u|e]; [|left; eauto].
  destruct (metaStorageGetReply env) as [meta|e]; [right | left]; eauto 6.
Qed.

(** X16.  A run of the registry job that throws (the registry update or the
    meta read rejects) leaves [lastTimestamp], the gauge and the log as they
    were.  A run that completes sets [lastTimestamp] to the timestamp of the
    stored meta, or keeps it when the storage holds no meta, and always exports
    it to the gauge: also the initial 0. *)
Theorem registryUpdateJob_exports_lastTimestamp env s :
  (∀ e s1, registryUpdateJob env s = (Thrown e, s1) → s1 = s)
  ∧ (∀ s1, registryUpdateJob env s = (Returned (), s1) →
           registryLastUpdateGauge s1 = Some (lastTimestamp s1)
           ∧ ∃ meta, metaStorageGetReply env = Resolves meta
                     ∧ lastTimestamp s1 = match meta with
                                          | Some m => RegistryMeta.timestamp m
                                          | None => lastTimestamp s
                                          end)
  ∧ (∀ c s1, registryUpdateJob env s ≠ (Exited c, s1)).
Proof.
  destruct (registryUpdateJob_cases env s) as [(e & -> & _) | (u & meta & _ & Hm & ->)].
  - split; [intros e' s1 H; by inversion H|]. split; [intros s1 H; discriminate|].
    intros c s1 H. discriminate.
  - split; [intros e' s1 H; discriminate|]. split.
    + intros s1 H. inversion H; subst. simpl. split; [reflexivity|]. eauto.
    + intros c s1 H. discriminate.
Qed.

(** X17.  Over any sequence of runs of the registry job from a fresh service,
    whatever is logged for the runs that throw, either nothing has been
    exported yet and [lastTimestamp] is still 0, or the gauge holds the
    current [lastTimestamp]; and as long as every run has failed (its registry
    update or its meta read rejected) nothing has been exported. *)
Theorem registry_gauge_follows_lastTimestamp
    (reported : JsError → list LogEntry) (runs : list RegistryReplies) :
  let s := registryRuns reported runs newRegistryService in
  ((registryLastUpdateGauge s = None ∧ lastTimestamp s = 0)
   ∨ registryLastUpdateGauge s = Some (lastTimestamp s))
  ∧ (Forall (λ env, ∃ e, keyRegistryUpdate env = Rejects e
                         ∨ metaStorageGetReply env = Rejects e) runs →
     registryLastUpdateGauge s = None ∧ lastTimestamp s = 0).
Proof.
  cbv zeta. split.
  - assert (Hgen : ∀ s0,
               (registryLastUpdateGauge s0 = None ∧ lastTimestamp s0 = 0)
               ∨ registryLastUpdateGauge s0 = Some (lastTimestamp s0) →
               (registryLastUpdateGauge (registryRuns reported runs s0) = None
                ∧ lastTimestamp (registryRuns reported runs s0) = 0)
               ∨ registryLastUpdateGauge (registryRuns reported runs s0)
                 = Some (lastTimestamp (registryRuns reported runs s0))).
    { induction runs as [|env rest IH]; intros s0 Hinv; simpl; [exact Hinv|].
      apply IH. unfold registryRun.
      destruct (registryUpdateJob_cases env s0) as [(e & -> & _) | (u & meta & _ & _ & ->)];
        simpl; [exact Hinv | right; reflexivity]. }
    apply Hgen. left. auto.
  - assert (Hgen : ∀ s0,
               Forall (λ env, ∃ e, keyRegistryUpdate env = Rejects e
                                   ∨ metaStorageGetReply env = Rejects e) runs →
               registryLastUpdateGauge s0 = None →
               lastTimestamp s0 = 0 →
               registryLastUpdateGauge (registryRuns reported runs s0) = None
               ∧ lastTimestamp (registryRuns reported runs s0) = 0).
    { induction runs as [|env rest IH]; intros s0 Hall Hg Ht; simpl; [auto|].
      inversion Hall as [|? ? (e0 & Hfail) Hrest]; subst.
      unfold registryRun.
      destruct (registryUpdateJob_cases env s0) as [(e & -> & _) | (u & meta & Hk & Hm & _)].
      - apply IH; simpl; auto.
      - destruct Hfail; congruence. }
    intros Hall. apply Hgen; auto.
Qed.

(** An instance of X17: two runs whose registry update fails. *)
Lemma registry_gauge_follows_lastTimestamp_witness :
  let failing := {| keyRegistryUpdate := Rejects (Error "could not detect network");
                    metaStorageGetReply := Resolves None |} in
  let s := registryRuns (λ e, [LogError e]) [failing; failing] newRegistryService in
  registryLastUpdateGauge s = None
  ∧ registryLogs s = [LogError (Error "could not detect network");
                      LogError (Error "could not detect network")].
Proof.
  intros failing s. split; [|reflexivity].
  destruct (registry_gauge_follows_lastTimestamp (λ e, [LogError e]) [failing; failing])
    as [_ H].
  destruct H as (Hg & _).
  - repeat constructor; eexists; left; reflexivity.
  - exact Hg.
Defined.
